(** * CJK-Script-AI: the data preparation code of [utils.py]

    A shallow embedding of [create_eng_to_rads], [dict_to_tensors] and
    [get_tensor_from_word], and the properties of the derived
    English-word -> radicals mapping and of its encoding.

    Python strings are [string]s holding the UTF-8 bytes of the text;
    comparing them byte by byte gives the code-point order that Python
    uses for [str]. *)

From stdpp Require Import gmap strings list sorting.
From Stdlib Require Import OrderedTypeEx.

Open Scope string_scope.
Open Scope list_scope.

(** ** Exceptions and results *)

Inductive exn : Type :=
  | KeyError (key : string)
  | IndexError
  | ValueError (msg : string)
  | AssertionError
  | RuntimeError (msg : string).

Inductive result (A : Type) : Type :=
  | Return (a : A)
  | Raise (e : exn).
Arguments Return {A} a.
Arguments Raise {A} e.

Global Instance result_ret : MRet result := λ A a, Return a.
Global Instance result_bind : MBind result := λ A B f m,
  match m with
  | Return a => f a
  | Raise e => Raise e
  end.

(** A [for] loop whose body may raise: the state is threaded through the
    elements from left to right and the first exception ends the loop. *)
Fixpoint for_each {S A : Type} (body : S → A → result S) (s : S) (l : list A)
    : result S :=
  match l with
  | [] => Return s
  | x :: l => s' ← body s x; for_each body s' l
  end.

(** ** Python dictionaries

    A [dict] keeps its entries in insertion order and its keys are
    pairwise distinct. *)

Abbreviation pydict V := (list (string * V)).

Definition wf_dict {V : Type} (d : pydict V) : Prop := NoDup d.*1.

Definition dict_keys {V : Type} (d : pydict V) : list string := d.*1.
Definition dict_values {V : Type} (d : pydict V) : list V := d.*2.

(** [d[k]] *)
Fixpoint getitem {V : Type} (d : pydict V) (k : string) : result V :=
  match d with
  | [] => Raise (KeyError k)
  | (k', v) :: d => if decide (k' = k) then Return v else getitem d k
  end.

(** [d[k] = v]: an existing key keeps its position, a new key goes last. *)
Fixpoint setitem {V : Type} (d : pydict V) (k : string) (v : V) : pydict V :=
  match d with
  | [] => [(k, v)]
  | (k', v') :: d =>
      if decide (k' = k) then (k, v) :: d else (k', v') :: setitem d k v
  end.

(** [m[k]] on a dictionary whose order is never observed. *)
Definition map_getitem {V : Type} (m : gmap string V) (k : string) : result V :=
  match m !! k with
  | Some v => Return v
  | None => Raise (KeyError k)
  end.

(** ** [create_eng_to_rads] *)

(** Lines 72-73: [if rad not in eng_to_rads[eng_word]:
    eng_to_rads[eng_word].append(rad)]. *)
Definition append_unique (eng_word : string)
    (eng_to_rads : pydict (list string)) (rad : string)
    : result (pydict (list string)) :=
  rads ← getitem eng_to_rads eng_word;
  if decide (rad ∈ rads) then Return eng_to_rads
  else
    rads ← getitem eng_to_rads eng_word;
    Return (setitem eng_to_rads eng_word (rads ++ [rad])).

(** Lines 70-73: the body of the loop over the kanji of one word. *)
Definition add_kanji (kanji_to_rads : gmap string (list string))
    (eng_word : string) (eng_to_rads : pydict (list string)) (kanji : string)
    : result (pydict (list string)) :=
  if decide (is_Some (kanji_to_rads !! kanji)) then
    rads ← map_getitem kanji_to_rads kanji;
    for_each (append_unique eng_word) eng_to_rads rads
  else Return eng_to_rads.

(** Lines 66-73: the body of the loop over the English words. *)
Definition add_word (kanji_to_rads : gmap string (list string))
    (eng_to_kanji : pydict (list string))
    (eng_to_rads : pydict (list string)) (eng_word : string)
    : result (pydict (list string)) :=
  let eng_to_rads := setitem eng_to_rads eng_word [] in
  kanjis ← getitem eng_to_kanji eng_word;
  for_each (add_kanji kanji_to_rads eng_word) eng_to_rads kanjis.

Definition create_eng_to_rads (kanji_to_rads : gmap string (list string))
    (eng_to_kanji : pydict (list string)) : result (pydict (list string)) :=
  for_each (add_word kanji_to_rads eng_to_kanji) [] (dict_keys eng_to_kanji).

(** *** The derivation as the data model words it

    The radicals of one word: walk the kanji in order, and for each kanji
    that has an entry append each of its radicals unless it is already in
    the list. *)

Definition add_radical (rads : list string) (rad : string) : list string :=
  if decide (rad ∈ rads) then rads else rads ++ [rad].

Definition add_radicals_of (kanji_to_rads : gmap string (list string))
    (rads : list string) (kanji : string) : list string :=
  match kanji_to_rads !! kanji with
  | Some rs => foldl add_radical rads rs
  | None => rads
  end.

Definition word_radicals (kanji_to_rads : gmap string (list string))
    (kanjis : list string) : list string :=
  foldl (add_radicals_of kanji_to_rads) [] kanjis.

(** One entry of the derived mapping, from one entry of [eng_to_kanji]. *)
Definition derive (kanji_to_rads : gmap string (list string))
    (entry : string * list string) : string * list string :=
  (entry.1, word_radicals kanji_to_rads entry.2).

(** First-seen order, said directly: an element of a sequence is kept
    exactly when it is in neither [seen] nor the part already read. *)
Fixpoint first_seen (seen l : list string) : list string :=
  match l with
  | [] => []
  | x :: l =>
      if decide (x ∈ seen) then first_seen seen l
      else x :: first_seen (seen ++ [x]) l
  end.

(** The radicals of the kanji of a word that have an entry, kanji after
    kanji, with repetitions. *)
Definition radical_stream (kanji_to_rads : gmap string (list string))
    (kanjis : list string) : list string :=
  mjoin (omap (λ kanji, kanji_to_rads !! kanji) kanjis).

(** ** The order of labels

    [sorted] and [numpy.unique] order Python strings by code point, which
    on UTF-8 bytes is the byte-wise lexicographic order of
    [String.compare]. *)

Definition str_lt (s1 s2 : string) : Prop := String.compare s1 s2 = Lt.
Definition str_le (s1 s2 : string) : Prop := String.compare s1 s2 ≠ Gt.

Global Instance str_lt_dec : RelDecision str_lt.
Proof. intros s1 s2. unfold str_lt. solve_decision. Defined.
Global Instance str_le_dec : RelDecision str_le.
Proof. intros s1 s2. unfold str_le. solve_decision. Defined.

(** [sorted(set(labels))]; [numpy.unique(labels)] is the same list. *)
Definition sorted_unique (labels : list string) : list string :=
  merge_sort str_le (remove_dups labels).

(** [numpy.searchsorted(sorted_class, x)]: the insertion point of [x] in a
    sorted array, which is the number of its entries below [x]. *)
Definition searchsorted (sorted_class : list string) (x : string) : nat :=
  length (filter (λ c, str_lt c x) sorted_class).

(** ** Arrays and tensors

    A two-dimensional array is the list of its rows. The encoders produce
    integer arrays of zeros and ones; [torch.tensor(_, dtype=float32)]
    turns every entry into the float of the same value, which is exact, so
    a tensor entry is written as that integer: [1] stands for [1.0]. *)

Abbreviation array2d := (list (list Z)).
Abbreviation tensor := (list (list Z)).

(** [numpy.asarray] turns a list of [str] into an array of fixed-width
    unicode strings (dtype [<U]), padded with NUL characters; an element
    read back from such an array has lost the NUL characters at its end,
    those of the padding and its own alike. *)
Definition NUL : Ascii.ascii := Ascii.zero.

Fixpoint strip_nul (s : string) : string :=
  match s with
  | "" => ""
  | String c s =>
      match strip_nul s with
      | "" => if decide (c = NUL) then "" else String c ""
      | String c' s' => String c (String c' s')
      end
  end.

Definition np_asarray (l : list string) : list string := strip_nul <$> l.

Definition torch_tensor (a : array2d) : tensor := a.

(** One row of [csr_matrix((ones, indices, indptr), shape).toarray()]:
    the entry of a column is the sum of the ones stored for it. *)
Definition toarray_row (n_cols : nat) (cols : list nat) : list Z :=
  (λ c, Z.of_nat (length (filter (λ c', c' = c) cols))) <$> seq 0 n_cols.

(** ** [sklearn.preprocessing.LabelBinarizer]

    The encoders belong to scikit-learn and not to this repository; the
    definitions below follow [sklearn/preprocessing/_label.py] and
    [sklearn/utils/multiclass.py]. *)

Inductive target_type : Type := Binary | Multiclass.

Global Instance target_type_eq_dec : EqDecision target_type.
Proof. solve_decision. Defined.

(** [type_of_target] on a list of strings: the list is made an array,
    and more than two distinct values in the array make the target
    multiclass. *)
Definition type_of_target (y : list string) : target_type :=
  if decide (2 < length (remove_dups (np_asarray y)))%nat then Multiclass
  else Binary.

(** [Y[:, -1].reshape((-1, 1))] *)
Definition last_column (Y : array2d) : result array2d :=
  mapM (λ row : list Z,
    match last row with
    | Some x => Return [x]
    | None => Raise IndexError
    end) Y.

(** [label_binarize(y, classes=classes)] with the default labels 0 and 1
    and dense output; [y] is a list and [classes] is the array [classes_]
    of the fitted encoder. *)
Definition label_binarize (y classes : list string) : result array2d :=
  let y_type := type_of_target y in
  let n_classes := length classes in
  if decide (y_type = Binary ∧ n_classes = 1) then
    Return ((λ _, [0%Z]) <$> y)
  else
    let y_type :=
      if decide (y_type = Binary ∧ (3 ≤ n_classes)%nat) then Multiclass
      else y_type in
    (* sorted_class = np.sort(classes) *)
    let sorted_class := merge_sort str_le classes in
    (* y = column_or_1d(y) *)
    let y := np_asarray y in
    (* y_in_classes = np.isin(y, classes);
       indices = np.searchsorted(sorted_class, y[y_in_classes]) *)
    let Y :=
      (λ label,
         toarray_row n_classes
           (if decide (label ∈ classes) then [searchsorted sorted_class label]
            else [])) <$> y in
    (* if np.any(classes != sorted_class):
         Y = Y[:, np.searchsorted(sorted_class, classes)] *)
    let Y :=
      if decide (classes = sorted_class) then Y
      else
        (λ row : list Z,
           (λ c, default 0%Z (row !! searchsorted sorted_class c))
             <$> classes) <$> Y in
    if decide (y_type = Binary) then last_column Y else Return Y.

(** [LabelBinarizer().fit_transform(y)], paired with the [classes_] that
    the fit leaves in the encoder: [np.asarray(sorted(set(y)))]. The
    error message of the empty input ends with the [repr] of [y]. *)
Definition LabelBinarizer_fit_transform (y : list string)
    : result (array2d * list string) :=
  if decide (length y = 0) then Raise (ValueError "y has 0 samples: []")
  else
    let classes_ := np_asarray (sorted_unique y) in
    Y ← label_binarize y classes_;
    Return (Y, classes_).

(** ** [sklearn.preprocessing.MultiLabelBinarizer]

    [class_mapping] is a [defaultdict] whose factory is its own length: a
    label gets, the first time it is looked up, the number of labels seen
    before it. It is represented by its keys in insertion order, the
    value of a key being its position. *)

Definition class_mapping_getitem (class_mapping : list string)
    (label : string) : list string * nat :=
  match list_find (λ c, c = label) class_mapping with
  | Some (i, _) => (class_mapping, i)
  | None => (class_mapping ++ [label], length class_mapping)
  end.

(** The inner loop of [_transform]: [index.add(class_mapping[label])]. *)
Definition index_add (st : list string * gset nat) (label : string)
    : list string * gset nat :=
  let '(class_mapping, index) := class_mapping_getitem st.1 label in
  (class_mapping, {[index]} ∪ st.2).

(** The outer loop of [_transform]: one sample adds one row of column
    indices ([indices.extend(index)], [indptr.append(len(indices))]). *)
Definition transform_sample (st : list string * list (list nat))
    (labels : list string) : list string * list (list nat) :=
  let '(class_mapping, index) := foldl index_add (st.1, ∅) labels in
  (class_mapping, st.2 ++ [elements index]).

Definition mlb_transform (y : list (list string)) (class_mapping : list string)
    : list string * list (list nat) :=
  foldl transform_sample (class_mapping, []) y.

(** [MultiLabelBinarizer().fit_transform(y)], paired with [classes_]. *)
Definition MultiLabelBinarizer_fit_transform (y : list (list string))
    : array2d * list string :=
  let '(class_mapping, yt) := mlb_transform y [] in
  (* sorted(class_mapping, key=class_mapping.get) *)
  let tmp := class_mapping in
  (* classes_, inverse = np.unique(tmp, return_inverse=True) *)
  let classes_ := sorted_unique tmp in
  let inverse := searchsorted classes_ <$> tmp in
  (* yt.indices = inverse[yt.indices] *)
  let yt := (λ row : list nat, (λ k, default 0 (inverse !! k)) <$> row) <$> yt in
  (toarray_row (length classes_) <$> yt, classes_).

(** What a row of column indices says about its sample: the row lists,
    once each, the positions in [class_mapping] of the labels of the
    sample. *)
Definition row_of_sample (class_mapping : list string)
    (labels : list string) (row : list nat) : Prop :=
  NoDup row ∧ (∀ l, l ∈ labels → l ∈ class_mapping) ∧
  ∀ k, k ∈ row ↔ ∃ l, l ∈ labels ∧ class_mapping !! k = Some l.

(** ** [dict_to_tensors] *)

Definition py_assert (b : bool) : result unit :=
  if b then Return () else Raise AssertionError.

(** Lines 49-52: from the two encodings to the returned tuple. *)
Definition tensors_of_encoded (encoded_eng encoded_rad : array2d)
    (eng_classes rad_classes : list string)
    : result (tensor * tensor * list string * list string) :=
  let eng_tensor := torch_tensor encoded_eng in
  let rad_tensor := torch_tensor encoded_rad in
  _ ← py_assert (bool_decide (length eng_tensor = length rad_tensor));
  Return (eng_tensor, rad_tensor, eng_classes, rad_classes).

(** Lines 45-52 for any two encoders: [fit_transform_eng] stands for
    [encoder_eng.fit_transform] followed by the reading of
    [encoder_eng.classes_], and [fit_transform_rad] for the same on
    [encoder_rad]. *)
Definition dict_to_tensors_with
    (fit_transform_eng : list string → result (array2d * list string))
    (fit_transform_rad : list (list string) → result (array2d * list string))
    (eng_to_rad : pydict (list string))
    : result (tensor * tensor * list string * list string) :=
  '(encoded_eng, eng_classes) ← fit_transform_eng (dict_keys eng_to_rad);
  '(encoded_rad, rad_classes) ← fit_transform_rad (dict_values eng_to_rad);
  tensors_of_encoded encoded_eng encoded_rad eng_classes rad_classes.

(** [dict_to_tensors], with the two encoders of scikit-learn that lines
    45-46 create. *)
Definition dict_to_tensors (eng_to_rad : pydict (list string))
    : result (tensor * tensor * list string * list string) :=
  dict_to_tensors_with LabelBinarizer_fit_transform
    (λ y, Return (MultiLabelBinarizer_fit_transform y)) eng_to_rad.



(** A one-hot vector over a vocabulary of [n] entries: [n] entries, 1.0 at
    exactly one index and 0.0 everywhere else. *)
Definition one_hot (n : nat) (v : list Z) : Prop :=
  length v = n ∧
  ∃ k, v !! k = Some 1%Z ∧ ∀ j, j ≠ k → (j < n)%nat → v !! j = Some 0%Z.

(** ** [get_tensor_from_word] *)

(** [{vocab: idx for idx, vocab in enumerate(eng_vocab)}]: a later
    occurrence of a word overwrites an earlier one. *)
Definition word_to_idx (eng_vocab : list string) : gmap string nat :=
  foldl (λ m iv, <[iv.2 := iv.1]> m) ∅ (imap pair eng_vocab).

(** Lines 21-24: the scan for the first row that holds 1.0 at [idx]. *)
Fixpoint scan_tensors {A : Type} (is_one : A → bool) (idx : nat)
    (eng_tens : list (list A)) : result (list A) :=
  match eng_tens with
  | [] => Raise (RuntimeError "Corresponding tensor for word was not found!")
  | tens :: eng_tens =>
      match tens !! idx with
      | None => Raise IndexError
      | Some x =>
          if is_one x then Return tens else scan_tensors is_one idx eng_tens
      end
  end.

(** The entries of [eng_tens] are arbitrary floats; the function only
    compares them with 1.0, which is [is_one]. *)
Definition get_tensor_from_word {A : Type} (is_one : A → bool) (word : string)
    (eng_tens : list (list A)) (eng_vocab : list string) : result (list A) :=
  let word_to_idx_dict := word_to_idx eng_vocab in
  if decide (is_Some (word_to_idx_dict !! word)) then
    idx ← map_getitem word_to_idx_dict word;
    scan_tensors is_one idx eng_tens
  else Raise (RuntimeError "Word is not in vocabulary!").

(** ** The rows of the two tensors, said directly

    The input row of a word over the sorted vocabulary [classes]: the
    dense one-hot row when there are three classes or more, its last
    column alone when there are two, and a lone zero when there is one. *)
Definition binarized_row (classes : list string) (label : string) : list Z :=
  let n_classes := length classes in
  if decide (n_classes = 1) then [0%Z]
  else
    let row := toarray_row n_classes [searchsorted classes label] in
    if decide (n_classes < 3)%nat then [default 0%Z (last row)] else row.

(** The target row of a list of labels over [classes]: 1 in the columns
    of the classes that the list holds, 0 in the others. *)
Definition multi_hot_row (classes : list string) (labels : list string)
    : list Z :=
  (λ r, if decide (r ∈ labels) then 1%Z else 0%Z) <$> classes.

(** ** [train_model]

    The model, the optimizer, the criterion and the scheduler that
    [train_model] is handed are objects of torch. [W] stands for all that
    they keep between calls (parameters, gradient buffers, optimizer and
    scheduler state), [X] and [Y] for the rows of the two tensors, [O]
    for the outputs of the model and [L] for the losses. *)

Record torch_objects (W X Y O L : Type) : Type := {
  optimizer_zero_grad : W → W;
  model_call : W → X → O;
  criterion_call : O → Y → L;
  loss_backward : L → W → W;
  optimizer_step : W → W
}.
Arguments optimizer_zero_grad {W X Y O L} _ _.
Arguments model_call {W X Y O L} _ _ _.
Arguments criterion_call {W X Y O L} _ _ _.
Arguments loss_backward {W X Y O L} _ _ _.
Arguments optimizer_step {W X Y O L} _ _.

(** The calls that the function makes on those objects. *)
Inductive call : Type :=
  | ZeroGrad | Forward | Criterion | Backward | OptimizerStep | SchedulerStep.

(** The variable [loss]: the integer 0 of line 108 until the first example
    has been seen, the loss of the last example after that. *)
Inductive loss_var (L : Type) : Type :=
  | IntZero
  | LossTensor (l : L).
Arguments IntZero {L}.
Arguments LossTensor {L} l.

Record train_state (W L : Type) : Type := {
  world : W;
  loss : loss_var L;
  calls : list call;
  printed : list (nat * L)
}.
Arguments world {W L} _.
Arguments loss {W L} _.
Arguments calls {W L} _.
Arguments printed {W L} _.

Inductive train_result (A : Type) : Type :=
  | Trained (a : A)
  | AttributeError (msg : string).
Arguments Trained {A} a.
Arguments AttributeError {A} msg.

(** Lines 111-118: one example. *)
Definition train_example {W X Y O L : Type} (objs : torch_objects W X Y O L)
    (st : train_state W L) (example : X * Y) : train_state W L :=
  let w := optimizer_zero_grad objs (world st) in
  let output := model_call objs w example.1 in
  let l := criterion_call objs output example.2 in
  let w := loss_backward objs l w in
  let w := optimizer_step objs w in
  {| world := w; loss := LossTensor l;
     calls := calls st ++ [ZeroGrad; Forward; Criterion; Backward; OptimizerStep];
     printed := printed st |}.

(** Lines 119-120: [if scheduler is not None: scheduler.step()]. *)
Definition scheduler_step {W L : Type} (scheduler : option (W → W))
    (st : train_state W L) : train_state W L :=
  match scheduler with
  | Some step =>
      {| world := step (world st); loss := loss st;
         calls := calls st ++ [SchedulerStep]; printed := printed st |}
  | None => st
  end.

(** [print_verbose(line, verbose=verbose)], a line being the epoch
    number and the loss that the format string shows. *)
Definition print_verbose {W L : Type} (line : nat * L) (verbose : bool)
    (st : train_state W L) : train_state W L :=
  if verbose then
    {| world := world st; loss := loss st; calls := calls st;
       printed := printed st ++ [line] |}
  else st.

(** Lines 110-125: one epoch. The argument of [print_verbose] is built
    before the call, so [loss.data] is read whatever [verbose] is. *)
Definition train_epoch {W X Y O L : Type} (objs : torch_objects W X Y O L)
    (scheduler : option (W → W)) (verbose : bool)
    (eng_tensors : list X) (rad_tensors : list Y)
    (st : train_state W L) (epoch : nat) : train_result (train_state W L) :=
  let st := foldl (train_example objs) st (zip eng_tensors rad_tensors) in
  let st := scheduler_step scheduler st in
  if (epoch mod 1000 =? 0)%nat || (epoch <? 100)%nat then
    match loss st with
    | IntZero => AttributeError "'int' object has no attribute 'data'"
    | LossTensor l => Trained (print_verbose (epoch + 1, l) verbose st)
    end
  else Trained st.

Fixpoint train_epochs {W X Y O L : Type} (objs : torch_objects W X Y O L)
    (scheduler : option (W → W)) (verbose : bool)
    (eng_tensors : list X) (rad_tensors : list Y)
    (st : train_state W L) (epochs : list nat)
    : train_result (train_state W L) :=
  match epochs with
  | [] => Trained st
  | epoch :: epochs =>
      match train_epoch objs scheduler verbose eng_tensors rad_tensors st
              epoch with
      | Trained st =>
          train_epochs objs scheduler verbose eng_tensors rad_tensors st epochs
      | AttributeError msg => AttributeError msg
      end
  end.

(** [train_model(model, eng_tensors, rad_tensors, optimizer, criterion,
    epochs, scheduler, verbose)], started in the state [w] of the torch
    objects. *)
Definition train_model {W X Y O L : Type} (objs : torch_objects W X Y O L)
    (w : W) (eng_tensors : list X) (rad_tensors : list Y) (epochs : Z)
    (scheduler : option (W → W)) (verbose : bool)
    : train_result (train_state W L) :=
  train_epochs objs scheduler verbose eng_tensors rad_tensors
    {| world := w; loss := IntZero; calls := []; printed := [] |}
    (seq 0 (Z.to_nat epochs)).

(** The calls of one epoch over [n] examples. *)
Definition epoch_calls (n : nat) (with_scheduler : bool) : list call :=
  mjoin (replicate n [ZeroGrad; Forward; Criterion; Backward; OptimizerStep])
  ++ (if with_scheduler then [SchedulerStep] else []).

(** The epochs that get a line of output. *)
Definition logged_epoch (epoch : nat) : Prop :=
  epoch mod 1000 = 0 ∨ (epoch < 100)%nat.

Global Instance logged_epoch_dec epoch : Decision (logged_epoch epoch).
Proof. unfold logged_epoch. apply _. Defined.

(** Torch objects that only count the optimizer steps, and a world that
    is that count. *)
Definition counting_objects : torch_objects nat (list Z) (list Z) unit unit :=
  {| optimizer_zero_grad := λ w, w;
     model_call := λ _ _, ();
     criterion_call := λ _ _, ();
     loss_backward := λ _ w, w;
     optimizer_step := S |}.

(** ** Sample inputs *)

Definition sample_kanji_to_rads : gmap string (list string) :=
  <["火" := ["fire"]]> (<["木" := ["tree"; "wood"]]> ∅).

Definition sample_eng_to_kanji : pydict (list string) :=
  [("forest", ["木"; "木"])].

Definition one_word : pydict (list string) := [("a", ["x"])].

Definition two_words : pydict (list string) := [("a", ["x"]); ("b", [])].

(** Three distinct keys, one of which is "a" followed by a NUL
    character. *)
Definition a_nul : string := String.append "a" (String NUL "").

Definition nul_keys : pydict (list string) :=
  [("a", ["x"]); (a_nul, ["y"]); ("b", [])].

Definition sample_eng_to_rads : pydict (list string) :=
  [("tree", ["tree"; "wood"]); ("fire", ["fire"]);
   ("campfire", ["fire"; "tree"; "wood"])].

(** * Properties *)

(** ** The result monad and dictionaries *)

Lemma bind_Return {A B : Type} (f : A → result B) (a : A) :
  (Return a ≫= f) = f a.
Proof. reflexivity. Qed.

Section dict_facts.
Context {V : Type}.
Implicit Types (d : pydict V) (k : string) (v : V).

Lemma getitem_setitem d k v : getitem (setitem d k v) k = Return v.
Proof.
  induction d as [|[k' v'] d IH]; simpl.
  - by rewrite decide_True.
  - destruct (decide (k' = k)) as [->|Hne]; simpl.
    + by rewrite decide_True.
    + by rewrite decide_False.
Qed.

Lemma setitem_setitem d k v v' :
  setitem (setitem d k v) k v' = setitem d k v'.
Proof.
  induction d as [|[k' w] d IH]; simpl.
  - by rewrite decide_True.
  - destruct (decide (k' = k)) as [->|Hne]; simpl.
    + by rewrite decide_True.
    + rewrite decide_False by done. by rewrite IH.
Qed.

Lemma setitem_getitem_id d k v : getitem d k = Return v → setitem d k v = d.
Proof.
  induction d as [|[k' w] d IH]; simpl; [done|].
  destruct (decide (k' = k)) as [->|Hne]; [congruence|].
  intros Hg. by rewrite IH.
Qed.

Lemma setitem_fresh d k v : k ∉ dict_keys d → setitem d k v = d ++ [(k, v)].
Proof.
  unfold dict_keys. induction d as [|[k' w] d IH]; simpl; [done|].
  rewrite not_elem_of_cons. intros [Hne Hd].
  rewrite decide_False by done. by rewrite IH.
Qed.

Lemma getitem_elem_of d k : k ∈ dict_keys d → ∃ v, getitem d k = Return v.
Proof.
  unfold dict_keys. induction d as [|[k' w] d IH]; simpl.
  - by intros ?%elem_of_nil.
  - destruct (decide (k' = k)) as [->|Hne]; [by eauto|].
    rewrite elem_of_cons. intros [?|?]; [congruence|auto].
Qed.

Lemma getitem_app_fresh d1 d2 k :
  k ∉ dict_keys d1 → getitem (d1 ++ d2) k = getitem d2 k.
Proof.
  unfold dict_keys. induction d1 as [|[k' w] d1 IH]; simpl; [done|].
  rewrite not_elem_of_cons. intros [Hne Hd].
  rewrite decide_False by done. auto.
Qed.

Lemma getitem_Return_elem_of d k v : getitem d k = Return v → (k, v) ∈ d.
Proof.
  induction d as [|[k' w] d IH]; simpl; [done|].
  destruct (decide (k' = k)) as [->|Hne].
  - intros [= ->]. left.
  - intros Hg. right. auto.
Qed.

Lemma getitem_wf d k v : wf_dict d → (k, v) ∈ d → getitem d k = Return v.
Proof.
  unfold wf_dict. induction d as [|[k' w] d IH]; simpl.
  - by intros _ ?%elem_of_nil.
  - rewrite NoDup_cons. intros [Hk' Hd]. rewrite elem_of_cons.
    intros [[= -> ->]|Hin].
    + by rewrite decide_True.
    + rewrite decide_False; [auto|].
      intros ->. apply Hk'. apply list_elem_of_fmap. by exists (k, v).
Qed.

Lemma Forall_setitem (P : string * V → Prop) d k v :
  Forall P d → P (k, v) → Forall P (setitem d k v).
Proof.
  intros Hd Hkv. induction Hd as [|[k' w] d Hw Hd IH]; simpl.
  - by repeat constructor.
  - destruct (decide (k' = k)); constructor; auto.
Qed.
End dict_facts.

(** ** [create_eng_to_rads] runs the derivation of the data model *)

Section derivation.
Context (kanji_to_rads : gmap string (list string)).
Implicit Types (d : pydict (list string)) (w rad kanji : string).

Lemma append_unique_spec w d rads rad :
  getitem d w = Return rads →
  append_unique w d rad = Return (setitem d w (add_radical rads rad)).
Proof.
  intros Hg. unfold append_unique, add_radical. rewrite Hg, bind_Return.
  destruct (decide (rad ∈ rads)).
  - by rewrite setitem_getitem_id.
  - by rewrite bind_Return.
Qed.

Lemma for_each_append_unique w rs d rads :
  getitem d w = Return rads →
  for_each (append_unique w) d rs
  = Return (setitem d w (foldl add_radical rads rs)).
Proof.
  revert d rads. induction rs as [|rad rs IH]; intros d rads Hg; simpl.
  - by rewrite setitem_getitem_id.
  - rewrite (append_unique_spec _ _ _ _ Hg), bind_Return.
    rewrite (IH _ (add_radical rads rad)) by apply getitem_setitem.
    by rewrite setitem_setitem.
Qed.

Lemma add_kanji_spec w d rads kanji :
  getitem d w = Return rads →
  add_kanji kanji_to_rads w d kanji
  = Return (setitem d w (add_radicals_of kanji_to_rads rads kanji)).
Proof.
  intros Hg. unfold add_kanji, add_radicals_of, map_getitem.
  destruct (kanji_to_rads !! kanji) as [rs|] eqn:Hk.
  - rewrite decide_True by eauto. rewrite bind_Return.
    by apply for_each_append_unique.
  - rewrite decide_False by (by intros [? ?]).
    by rewrite setitem_getitem_id.
Qed.

Lemma for_each_add_kanji w kanjis d rads :
  getitem d w = Return rads →
  for_each (add_kanji kanji_to_rads w) d kanjis
  = Return (setitem d w (foldl (add_radicals_of kanji_to_rads) rads kanjis)).
Proof.
  revert d rads. induction kanjis as [|kanji kanjis IH]; intros d rads Hg; simpl.
  - by rewrite setitem_getitem_id.
  - rewrite (add_kanji_spec _ _ _ _ Hg), bind_Return.
    rewrite (IH _ (add_radicals_of kanji_to_rads rads kanji))
      by apply getitem_setitem.
    by rewrite setitem_setitem.
Qed.

Lemma add_word_spec eng_to_kanji d w kanjis :
  getitem eng_to_kanji w = Return kanjis →
  add_word kanji_to_rads eng_to_kanji d w
  = Return (setitem d w (word_radicals kanji_to_rads kanjis)).
Proof.
  intros Hg. unfold add_word, word_radicals. rewrite Hg, bind_Return.
  rewrite (for_each_add_kanji _ _ _ []) by apply getitem_setitem.
  by rewrite setitem_setitem.
Qed.

Lemma for_each_add_word eng_to_kanji done todo :
  wf_dict eng_to_kanji → eng_to_kanji = done ++ todo →
  for_each (add_word kanji_to_rads eng_to_kanji) (derive kanji_to_rads <$> done)
    (dict_keys todo)
  = Return (derive kanji_to_rads <$> eng_to_kanji).
Proof.
  intros Hwf. revert done.
  induction todo as [|[w kanjis] todo IH]; intros done ->; simpl.
  - by rewrite app_nil_r.
  - assert (w ∉ dict_keys done) as Hfresh.
    { unfold wf_dict in Hwf. rewrite fmap_app in Hwf.
      apply NoDup_app in Hwf as (_ & Hdisj & _).
      intros Hin. apply (Hdisj _ Hin). simpl. left. }
    rewrite (add_word_spec _ _ _ kanjis).
    2:{ rewrite getitem_app_fresh by done. simpl. by rewrite decide_True. }
    rewrite bind_Return, setitem_fresh.
    2:{ unfold dict_keys in *. by rewrite <-list_fmap_compose. }
    specialize (IH (done ++ [(w, kanjis)])).
    rewrite fmap_app in IH. simpl in IH. apply IH.
    by rewrite <-app_assoc.
Qed.

Lemma create_eng_to_rads_derive eng_to_kanji :
  wf_dict eng_to_kanji →
  create_eng_to_rads kanji_to_rads eng_to_kanji
  = Return (derive kanji_to_rads <$> eng_to_kanji).
Proof. intros Hwf. by apply (for_each_add_word eng_to_kanji []). Qed.

(** Without the assumption that the keys are distinct the loop still
    ends normally, and every list it stores is a [word_radicals]. *)
Lemma for_each_add_word_total eng_to_kanji ws d :
  ws ⊆ dict_keys eng_to_kanji →
  Forall (λ e, ∃ kanjis, e.2 = word_radicals kanji_to_rads kanjis) d →
  ∃ d', for_each (add_word kanji_to_rads eng_to_kanji) d ws = Return d' ∧
    Forall (λ e, ∃ kanjis, e.2 = word_radicals kanji_to_rads kanjis) d'.
Proof.
  revert d. induction ws as [|w ws IH]; intros d Hsub Hd; simpl; [by eauto|].
  destruct (getitem_elem_of eng_to_kanji w) as [kanjis Hg].
  { apply Hsub. left. }
  rewrite (add_word_spec _ _ _ _ Hg), bind_Return. apply IH.
  - intros x Hx. apply Hsub. by right.
  - apply Forall_setitem; [done|]. by exists kanjis.
Qed.

Lemma NoDup_add_radical rads rad : NoDup rads → NoDup (add_radical rads rad).
Proof.
  intros Hnd. unfold add_radical. destruct (decide (rad ∈ rads)); [done|].
  apply NoDup_app. split_and!; [done| |apply NoDup_singleton].
  intros x Hx ->%list_elem_of_singleton. done.
Qed.

Lemma NoDup_foldl_add_radical rs rads :
  NoDup rads → NoDup (foldl add_radical rads rs).
Proof.
  revert rads. induction rs as [|rad rs IH]; intros rads Hnd; simpl; [done|].
  by apply IH, NoDup_add_radical.
Qed.

Lemma NoDup_word_radicals kanjis : NoDup (word_radicals kanji_to_rads kanjis).
Proof.
  unfold word_radicals. generalize (NoDup_nil_2 (A:=string)).
  generalize (@nil string) as rads. induction kanjis as [|kanji kanjis IH];
    intros rads Hnd; simpl; [done|].
  apply IH. unfold add_radicals_of.
  destruct (kanji_to_rads !! kanji); [|done].
  by apply NoDup_foldl_add_radical.
Qed.

Lemma foldl_add_radical_first_seen rs rads :
  foldl add_radical rads rs = rads ++ first_seen rads rs.
Proof.
  revert rads. induction rs as [|rad rs IH]; intros rads; simpl.
  - by rewrite app_nil_r.
  - rewrite IH. unfold add_radical. destruct (decide (rad ∈ rads)); [done|].
    by rewrite <-app_assoc.
Qed.

Lemma foldl_add_radicals_of_stream kanjis rads :
  foldl (add_radicals_of kanji_to_rads) rads kanjis
  = foldl add_radical rads (radical_stream kanji_to_rads kanjis).
Proof.
  revert rads. induction kanjis as [|kanji kanjis IH]; intros rads; [done|].
  simpl. rewrite IH. unfold add_radicals_of, radical_stream. simpl.
  destruct (kanji_to_rads !! kanji) as [rs|]; [|done].
  simpl. by rewrite foldl_app.
Qed.

Lemma word_radicals_first_seen kanjis :
  word_radicals kanji_to_rads kanjis
  = first_seen [] (radical_stream kanji_to_rads kanjis).
Proof.
  unfold word_radicals.
  by rewrite foldl_add_radicals_of_stream, foldl_add_radical_first_seen.
Qed.

Lemma foldl_add_radicals_of_absent kanjis rads :
  Forall (λ kanji, kanji_to_rads !! kanji = None) kanjis →
  foldl (add_radicals_of kanji_to_rads) rads kanjis = rads.
Proof.
  induction 1 as [|kanji kanjis Hk _ IH]; simpl; [done|].
  unfold add_radicals_of at 2. by rewrite Hk.
Qed.
End derivation.

(** ** The order of labels *)

Lemma str_lt_trans s1 s2 s3 : str_lt s1 s2 → str_lt s2 s3 → str_lt s1 s3.
Proof.
  unfold str_lt. intros H12 H23.
  apply String_as_OT.cmp_lt. apply String_as_OT.cmp_lt in H12, H23.
  by eapply String_as_OT.lt_trans.
Qed.

Lemma str_lt_irrefl s : ¬ str_lt s s.
Proof.
  unfold str_lt. intros Hlt.
  assert (String.compare s s = Eq) as Heq by by apply String_as_OT.cmp_eq.
  congruence.
Qed.

Lemma str_le_lt_eq s1 s2 : str_le s1 s2 ↔ str_lt s1 s2 ∨ s1 = s2.
Proof.
  unfold str_le, str_lt. split.
  - intros Hle. destruct (String.compare s1 s2) eqn:Hc; [|by left|done].
    right. by apply String_as_OT.cmp_eq.
  - intros [->| ->]; [done|].
    assert (String.compare s2 s2 = Eq) as -> by by apply String_as_OT.cmp_eq.
    done.
Qed.

Lemma str_le_total : Total str_le.
Proof.
  intros s1 s2. unfold str_le. rewrite (String.compare_antisym s2 s1).
  destruct (String.compare s1 s2); simpl; auto.
Qed.

Lemma str_le_trans : Transitive str_le.
Proof.
  intros s1 s2 s3. rewrite !str_le_lt_eq.
  intros [H12| ->] [H23| ->]; eauto using str_lt_trans.
Qed.

Lemma NoDup_sorted_unique labels : NoDup (sorted_unique labels).
Proof.
  unfold sorted_unique. rewrite merge_sort_Permutation. apply NoDup_remove_dups.
Qed.

Lemma elem_of_sorted_unique labels x : x ∈ sorted_unique labels ↔ x ∈ labels.
Proof.
  unfold sorted_unique. by rewrite merge_sort_Permutation, elem_of_remove_dups.
Qed.

Lemma length_sorted_unique labels :
  length (sorted_unique labels) = length (remove_dups labels).
Proof. unfold sorted_unique. by rewrite merge_sort_Permutation. Qed.

Lemma remove_dups_NoDup (l : list string) : NoDup l → remove_dups l = l.
Proof.
  induction 1 as [|x l Hx _ IH]; simpl; [done|].
  case_decide; [done|]. by rewrite IH.
Qed.

Lemma StronglySorted_le_lt (l : list string) :
  StronglySorted str_le l → NoDup l → StronglySorted str_lt l.
Proof.
  induction 1 as [|x l _ IH Hx]; intros Hnd; [constructor|].
  apply NoDup_cons in Hnd as [Hnotin Hnd]. constructor; [auto|].
  rewrite Forall_forall in Hx. apply Forall_forall. intros y Hy.
  destruct (proj1 (str_le_lt_eq x y) (Hx y Hy)) as [?| ->]; done.
Qed.

Lemma StronglySorted_sorted_unique labels :
  StronglySorted str_lt (sorted_unique labels).
Proof.
  apply StronglySorted_le_lt; [|apply NoDup_sorted_unique].
  unfold sorted_unique.
  apply (@StronglySorted_merge_sort _ str_le _ str_le_trans str_le_total).
Qed.

Lemma filter_none {A : Type} (P : A → Prop) `{!∀ x, Decision (P x)}
    (l : list A) :
  (∀ x, x ∈ l → ¬ P x) → filter P l = [].
Proof.
  intros Hl. destruct (filter P l) as [|y k] eqn:Hf; [done|].
  assert (y ∈ filter P l) as [HP Hy]%list_elem_of_filter by (rewrite Hf; left).
  by destruct (Hl y Hy).
Qed.

(** In a strictly sorted array, the insertion point of an entry is its
    position. *)
Lemma searchsorted_lookup (classes : list string) (x : string) :
  StronglySorted str_lt classes → x ∈ classes →
  classes !! searchsorted classes x = Some x.
Proof.
  unfold searchsorted. induction 1 as [|c classes _ IH Hc]; intros Hx.
  - by apply elem_of_nil in Hx.
  - rewrite Forall_forall in Hc. apply elem_of_cons in Hx as [->|Hx].
    + rewrite filter_cons_False by apply str_lt_irrefl.
      assert (filter (λ c', str_lt c' c) classes = []) as ->; [|done].
      apply filter_none. intros y Hy Hlt.
      apply (str_lt_irrefl c). eapply str_lt_trans; [by apply Hc|done].
    + rewrite filter_cons_True by auto. simpl. auto.
Qed.

Lemma searchsorted_lt (classes : list string) (x : string) :
  StronglySorted str_lt classes → x ∈ classes →
  searchsorted classes x < length classes.
Proof.
  intros Hs Hx. eapply lookup_lt_Some. by apply searchsorted_lookup.
Qed.

(** ** Dense rows *)

Lemma length_toarray_row n cols : length (toarray_row n cols) = n.
Proof. unfold toarray_row. by rewrite length_fmap, length_seq. Qed.

Lemma lookup_toarray_row n cols j :
  j < n →
  toarray_row n cols !! j
  = Some (Z.of_nat (length (filter (λ c, c = j) cols))).
Proof.
  intros Hj. unfold toarray_row.
  by rewrite list_lookup_fmap, lookup_seq_lt.
Qed.

Lemma one_hot_toarray_row n k : k < n → one_hot n (toarray_row n [k]).
Proof.
  intros Hk. split; [apply length_toarray_row|]. exists k. split.
  - rewrite lookup_toarray_row by done. by rewrite filter_cons_True.
  - intros j Hne Hj. rewrite lookup_toarray_row by done.
    by rewrite filter_cons_False.
Qed.

(** A one-hot vector has its 1.0 at one index only. *)
Lemma one_hot_unique n v k1 k2 :
  one_hot n v → v !! k1 = Some 1%Z → v !! k2 = Some 1%Z → k1 = k2.
Proof.
  intros [Hlen (k & Hk & Hz)] H1 H2.
  assert (∀ j, v !! j = Some 1%Z → j = k) as Huniq.
  { intros j Hj. destruct (decide (j = k)) as [|Hne]; [done|].
    apply lookup_lt_Some in Hj as Hlt. rewrite Hlen in Hlt.
    rewrite (Hz j Hne Hlt) in Hj. done. }
  by rewrite (Huniq k1), (Huniq k2).
Qed.

Lemma str_lt_asym s1 s2 : str_lt s1 s2 → ¬ str_lt s2 s1.
Proof.
  intros H12 H21. apply (str_lt_irrefl s1). by eapply str_lt_trans.
Qed.

Lemma str_lt_trichotomy s1 s2 : s1 ≠ s2 → str_lt s1 s2 ∨ str_lt s2 s1.
Proof.
  intros Hne. destruct (str_le_total s1 s2) as [H|H];
    apply str_le_lt_eq in H as [?|?]; auto; congruence.
Qed.

Lemma str_le_antisym : AntiSymm eq str_le.
Proof.
  intros s1 s2 [H12| ->]%str_le_lt_eq [H21|H]%str_le_lt_eq; try done.
  by destruct (str_lt_asym _ _ H12).
Qed.

(** Sorting a sorted array leaves it as it is. *)
Lemma merge_sort_sorted (l : list string) :
  StronglySorted str_le l → merge_sort str_le l = l.
Proof.
  intros Hl. apply (@StronglySorted_unique _ str_le str_le_antisym);
    [|done|apply merge_sort_Permutation].
  apply (@StronglySorted_merge_sort _ str_le _ str_le_trans str_le_total).
Qed.

(** In a sorted array, with or without repetitions, the insertion point
    of an entry is the position of its first occurrence. *)
Lemma searchsorted_lookup_le (classes : list string) (x : string) :
  StronglySorted str_le classes → x ∈ classes →
  classes !! searchsorted classes x = Some x.
Proof.
  unfold searchsorted. induction 1 as [|c classes _ IH Hc]; intros Hx.
  - by apply elem_of_nil in Hx.
  - rewrite Forall_forall in Hc. destruct (decide (str_lt c x)) as [Hlt|Hge].
    + rewrite filter_cons_True by done. simpl. apply IH.
      apply elem_of_cons in Hx as [->|Hx]; [|done].
      by destruct (str_lt_irrefl c).
    + rewrite filter_cons_False by done.
      assert (x = c) as ->.
      { apply elem_of_cons in Hx as [?|Hx]; [done|].
        destruct (proj1 (str_le_lt_eq c x) (Hc x Hx)); [done|by symmetry]. }
      rewrite filter_none; [done|]. intros y Hy Hlt.
      destruct (proj1 (str_le_lt_eq c y) (Hc y Hy)) as [Hcy| ->].
      * by destruct (str_lt_asym _ _ Hcy).
      * by destruct (str_lt_irrefl y).
Qed.

(** ** Strings read back from an array *)

Lemma strip_nul_cons c s :
  strip_nul (String c s)
  = if decide (strip_nul s = "" ∧ c = NUL) then "" else String c (strip_nul s).
Proof.
  simpl. destruct (strip_nul s) as [|c' s'].
  - destruct (decide (c = NUL)) as [->|Hc].
    + by rewrite decide_True.
    + by rewrite decide_False by (by intros [_ ?]).
  - by rewrite decide_False by (by intros [? _]).
Qed.

Lemma str_le_nil_l s : str_le "" s.
Proof. by destruct s. Qed.

Lemma str_le_nil_r s : str_le s "" → s = "".
Proof. by destruct s. Qed.

(** Dropping the NUL characters at the end keeps the order of two
    strings, up to equality. *)
Lemma strip_nul_mono s1 s2 :
  str_le s1 s2 → str_le (strip_nul s1) (strip_nul s2).
Proof.
  revert s2. induction s1 as [|a s1 IH]; intros s2 Hle.
  { apply str_le_nil_l. }
  destruct s2 as [|b s2]; [by apply str_le_nil_r in Hle|].
  rewrite !strip_nul_cons.
  destruct (decide (strip_nul s1 = "" ∧ a = NUL)) as [|Hkeep];
    [apply str_le_nil_l|].
  unfold str_le in Hle. simpl in Hle.
  destruct (Ascii.compare a b) eqn:Hab; [| |done].
  - apply Ascii.compare_eq_iff in Hab as ->.
    specialize (IH s2 Hle).
    destruct (decide (strip_nul s2 = "" ∧ b = NUL)) as [[Hs2 Hb]|_].
    + rewrite Hs2 in IH. apply str_le_nil_r in IH. by destruct Hkeep.
    + unfold str_le. simpl. unfold Ascii.compare at 1.
      by rewrite N.compare_refl.
  - rewrite decide_False.
    + unfold str_le. simpl. by rewrite Hab.
    + intros [_ ->]. unfold Ascii.compare in Hab. simpl in Hab.
      by destruct (Ascii.N_of_ascii a).
Qed.

Lemma StronglySorted_np_asarray y :
  StronglySorted str_le (np_asarray (sorted_unique y)).
Proof.
  apply (StronglySorted_fmap _ str_lt); [|apply StronglySorted_sorted_unique].
  intros s1 s2 Hlt. apply strip_nul_mono, str_le_lt_eq. by left.
Qed.

Lemma length_remove_dups_fmap (f : string → string) (l : list string) :
  (length (remove_dups (f <$> l)) ≤ length (remove_dups l))%nat.
Proof.
  rewrite <-(length_fmap f (remove_dups l)). apply submseteq_length.
  apply NoDup_submseteq; [apply NoDup_remove_dups|].
  intros x [w [-> Hw]]%elem_of_remove_dups%list_elem_of_fmap.
  apply list_elem_of_fmap. exists w. by rewrite elem_of_remove_dups.
Qed.

(** ** [LabelBinarizer] *)

Lemma sorted_unique_nonempty y : y ≠ [] → 0 < length (sorted_unique y).
Proof.
  destruct y as [|x y]; [done|]. intros _.
  assert (x ∈ sorted_unique (x :: y)) as Hx by (apply elem_of_sorted_unique; left).
  destruct (sorted_unique (x :: y)); [by apply elem_of_nil in Hx|simpl; lia].
Qed.

Lemma last_column_fmap {A : Type} (f : A → list Z) (l : list A) :
  (∀ x, x ∈ l → f x ≠ []) →
  last_column (f <$> l) = Return ((λ x, [default 0%Z (last (f x))]) <$> l).
Proof.
  unfold last_column. induction l as [|x l IH]; intros Hne; [done|].
  rewrite !fmap_cons. simpl.
  destruct (last (f x)) as [z|] eqn:Hlast.
  - rewrite bind_Return, IH; [done|]. intros y Hy. apply Hne. by right.
  - apply last_None in Hlast. destruct (Hne x); [left|done].
Qed.

(** What the encoder returns on the keys of a dictionary: one
    [binarized_row] per key, read back from the array of the keys. *)
Lemma label_binarize_closed y :
  y ≠ [] →
  label_binarize y (np_asarray (sorted_unique y))
  = Return (binarized_row (np_asarray (sorted_unique y)) <$> np_asarray y).
Proof.
  intros Hy.
  pose proof (sorted_unique_nonempty y Hy) as Hpos.
  pose proof (length_remove_dups_fmap strip_nul y) as Hm.
  pose proof (merge_sort_sorted _ (StronglySorted_np_asarray y)) as Hsorted.
  assert (∀ label, label ∈ np_asarray y →
            label ∈ np_asarray (sorted_unique y)) as Hin.
  { intros label (w & -> & Hw)%list_elem_of_fmap.
    apply list_elem_of_fmap. exists w. by rewrite elem_of_sorted_unique. }
  assert (length (np_asarray (sorted_unique y)) = length (remove_dups y))
    as Hn by (unfold np_asarray; by rewrite length_fmap, length_sorted_unique).
  rewrite length_sorted_unique in Hpos.
  fold (np_asarray y) in Hm.
  remember (np_asarray (sorted_unique y)) as classes eqn:Hclasses.
  unfold label_binarize, type_of_target, binarized_row. cbv zeta.
  rewrite Hsorted, Hn. rewrite (decide_True (P:=(classes = classes))) by done.
  destruct (decide (length (remove_dups y) = 1)) as [Hone|Hone].
  { rewrite (decide_False (P:=(2 < _)%nat)) by lia.
    rewrite decide_True by done. f_equal.
    unfold np_asarray. rewrite <-list_fmap_compose. by apply list_fmap_ext. }
  destruct (decide (length (remove_dups y) < 3)) as [Hsmall|Hbig].
  - rewrite (decide_False (P:=(2 < _)%nat)) by lia.
    rewrite decide_False by (by intros [_ ?]).
    rewrite (decide_False (P:=(Binary = Binary ∧ _))) by (intros [_ ?]; lia).
    rewrite decide_True by done.
    rewrite last_column_fmap.
    + f_equal. apply list_fmap_ext. intros i label Hlabel. simpl.
      rewrite decide_True; [done|]. apply Hin.
      by eapply list_elem_of_lookup_2.
    + intros label _ Hnil%(f_equal length).
      rewrite length_toarray_row in Hnil. simpl in Hnil. lia.
  - assert (∀ i label, np_asarray y !! i = Some label →
              toarray_row (length (remove_dups y))
                (if decide (label ∈ classes)
                 then [searchsorted classes label] else [])
              = toarray_row (length (remove_dups y))
                  [searchsorted classes label]) as Hrows.
    { intros i label Hlabel. rewrite decide_True; [done|]. apply Hin.
      by eapply list_elem_of_lookup_2. }
    destruct (decide (2 < length (remove_dups (np_asarray y)))).
    + rewrite (decide_False (P:=(Multiclass = Binary ∧ _ = 1)))
        by (by intros [? _]).
      rewrite (decide_False (P:=(Multiclass = Binary ∧ (3 ≤ _)%nat)))
        by (by intros [? _]).
      rewrite (decide_False (P:=(Multiclass = Binary))) by done.
      f_equal. by apply list_fmap_ext.
    + rewrite (decide_False (P:=(Binary = Binary ∧ _ = 1)))
        by (by intros [_ ?]).
      rewrite (decide_True (P:=(Binary = Binary ∧ (3 ≤ _)%nat)))
        by (split; [done|lia]).
      rewrite (decide_False (P:=(Multiclass = Binary))) by done.
      f_equal. by apply list_fmap_ext.
Qed.

(** ** [MultiLabelBinarizer]: the rows of column indices *)

Lemma class_mapping_getitem_spec cm label cm' i :
  NoDup cm → class_mapping_getitem cm label = (cm', i) →
  NoDup cm' ∧ cm `prefix_of` cm' ∧ cm' !! i = Some label ∧
  ∀ l, l ∈ cm' ↔ l ∈ cm ∨ l = label.
Proof.
  intros Hnd. unfold class_mapping_getitem.
  destruct (list_find _ cm) as [[i' x]|] eqn:Hfind; intros [= <- <-].
  - apply list_find_Some in Hfind as (Hi & -> & _).
    split_and!; [done|done|done|].
    intros l. split; [auto|]. intros [?| ->]; [done|].
    by eapply list_elem_of_lookup_2.
  - apply list_find_None in Hfind. rewrite Forall_forall in Hfind.
    split_and!.
    + apply NoDup_app. split_and!; [done| |apply NoDup_singleton].
      intros x Hx ->%list_elem_of_singleton. by apply (Hfind label).
    + by apply prefix_app_r.
    + by rewrite lookup_app_r, Nat.sub_diag.
    + intros l. rewrite elem_of_app, list_elem_of_singleton. done.
Qed.

Lemma prefix_lookup_NoDup (cm cm' : list string) k l :
  NoDup cm' → cm `prefix_of` cm' → l ∈ cm → cm' !! k = Some l →
  cm !! k = Some l.
Proof.
  intros Hnd Hpre [k0 Hk0]%list_elem_of_lookup_1 Hk.
  assert (cm' !! k0 = Some l) as Hk0' by by eapply prefix_lookup_Some.
  by rewrite (NoDup_lookup _ _ _ _ Hnd Hk Hk0').
Qed.

Lemma foldl_index_add labels cm index cm' index' :
  NoDup cm → foldl index_add (cm, index) labels = (cm', index') →
  NoDup cm' ∧ cm `prefix_of` cm' ∧
  (∀ l, l ∈ cm' ↔ l ∈ cm ∨ l ∈ labels) ∧
  (∀ k, k ∈ index' ↔ k ∈ index ∨ ∃ l, l ∈ labels ∧ cm' !! k = Some l).
Proof.
  revert cm index. induction labels as [|label labels IH];
    intros cm index Hnd; simpl.
  - intros [= <- <-]. split_and!; [done|done| |].
    + intros l. rewrite elem_of_nil. tauto.
    + intros k. split; [auto|]. intros [?|(l & []%elem_of_nil & _)]. done.
  - unfold index_add at 2. simpl.
    destruct (class_mapping_getitem cm label) as [cm1 i] eqn:Hget.
    destruct (class_mapping_getitem_spec _ _ _ _ Hnd Hget)
      as (Hnd1 & Hpre1 & Hi & Hmem1).
    intros Hfold. destruct (IH _ _ Hnd1 Hfold) as (Hnd' & Hpre' & Hmem' & Hidx).
    split_and!; [done|by etrans| |].
    + intros l. rewrite Hmem', Hmem1, elem_of_cons. tauto.
    + intros k. rewrite Hidx, elem_of_union, elem_of_singleton. split.
      * intros [[->|?]|(l & Hl & Hk)]; [|by left|].
        -- right. exists label. split; [left|]. by eapply prefix_lookup_Some.
        -- right. exists l. split; [by right|done].
      * intros [?|(l & [->|Hl]%elem_of_cons & Hk)]; [by left;right| |].
        -- left. left. eapply NoDup_lookup; [done..|].
           by eapply prefix_lookup_Some.
        -- right. eauto.
Qed.

Lemma row_of_sample_mono cm cm' labels row :
  NoDup cm' → cm `prefix_of` cm' →
  row_of_sample cm labels row → row_of_sample cm' labels row.
Proof.
  intros Hnd Hpre (Hrow & Hin & Hidx). split_and!; [done| |].
  - intros l Hl. destruct Hpre as [ext ->]. apply elem_of_app. auto.
  - intros k. rewrite Hidx. split; intros (l & Hl & Hk); exists l.
    + split; [done|]. by eapply prefix_lookup_Some.
    + split; [done|]. eapply prefix_lookup_NoDup; eauto.
Qed.

Lemma transform_sample_spec cm rows labels cm' rows' :
  NoDup cm → transform_sample (cm, rows) labels = (cm', rows') →
  NoDup cm' ∧ cm `prefix_of` cm' ∧
  (∀ l, l ∈ cm' ↔ l ∈ cm ∨ l ∈ labels) ∧
  ∃ row, rows' = rows ++ [row] ∧ row_of_sample cm' labels row.
Proof.
  intros Hnd. unfold transform_sample. simpl.
  destruct (foldl index_add (cm, ∅) labels) as [cm1 index] eqn:Hfold.
  intros [= <- <-].
  destruct (foldl_index_add _ _ _ _ _ Hnd Hfold) as (Hnd1 & Hpre & Hmem & Hidx).
  split_and!; [done..|]. exists (elements index). split; [done|].
  split_and!.
  - apply NoDup_elements.
  - intros l Hl. apply Hmem. by right.
  - intros k. rewrite elem_of_elements, Hidx. split; [|by right].
    by intros [[]%elem_of_empty|?].
Qed.

Lemma mlb_transform_spec y cm rows y0 cm' rows' :
  NoDup cm → Forall2 (row_of_sample cm) y0 rows →
  foldl transform_sample (cm, rows) y = (cm', rows') →
  NoDup cm' ∧ Forall2 (row_of_sample cm') (y0 ++ y) rows' ∧
  ∀ l, l ∈ cm' ↔ l ∈ cm ∨ ∃ labels, labels ∈ y ∧ l ∈ labels.
Proof.
  revert cm rows y0. induction y as [|labels y IH]; intros cm rows y0 Hnd Hrows.
  - simpl. intros [= <- <-]. rewrite app_nil_r. split_and!; [done..|].
    intros l. split; [auto|]. intros [?|(? & []%elem_of_nil & _)]; done.
  - simpl. destruct (transform_sample (cm, rows) labels) as [cm1 rows1] eqn:Hts.
    destruct (transform_sample_spec _ _ _ _ _ Hnd Hts)
      as (Hnd1 & Hpre & Hmem & row & -> & Hrow).
    intros Hfold.
    assert (Forall2 (row_of_sample cm1) (y0 ++ [labels]) (rows ++ [row]))
      as Hrows1.
    { apply Forall2_app; [|by apply Forall2_cons].
      eapply Forall2_impl; [done|]. intros ??. by apply row_of_sample_mono. }
    destruct (IH _ _ _ Hnd1 Hrows1 Hfold) as (Hnd' & Hall & Hmem').
    split_and!; [done|by rewrite <-app_assoc in Hall|].
    intros l. rewrite Hmem', Hmem. split.
    + intros [[?|?]|(labels' & ? & ?)]; [by left|right..].
      * exists labels. split; [left|done].
      * exists labels'. split; [by right|done].
    + intros [?|(labels' & [->|?]%elem_of_cons & ?)];
        [by left; left|by left; right|right; eauto].
Qed.

(** ** [MultiLabelBinarizer]: the dense rows *)

Lemma length_filter_unique {A : Type} (P : A → Prop) `{!∀ x, Decision (P x)}
    (l : list A) (x0 : A) :
  NoDup l → x0 ∈ l → (∀ x, x ∈ l → P x ↔ x = x0) →
  length (filter P l) = 1.
Proof.
  induction 1 as [|x l Hx Hnd IH]; intros Hin HP.
  - by apply elem_of_nil in Hin.
  - apply elem_of_cons in Hin as [->|Hin].
    + rewrite filter_cons_True by (apply HP; [left|done]).
      rewrite filter_none; [done|].
      intros y Hy HPy. apply HP in HPy; [|by right]. by subst.
    + rewrite filter_cons_False.
      2:{ intros HPx. apply HP in HPx; [|left]. by subst. }
      apply IH; [done|]. intros y Hy. apply HP. by right.
Qed.

Lemma length_filter_fmap {A B : Type} (f : A → B) (P : B → Prop)
    `{!∀ y, Decision (P y)} (l : list A) :
  length (filter P (f <$> l)) = length (filter (λ x, P (f x)) l).
Proof.
  induction l as [|x l IH]; [done|]. rewrite fmap_cons.
  destruct (decide (P (f x))).
  - rewrite !filter_cons_True by done. simpl. by rewrite IH.
  - by rewrite !filter_cons_False by done.
Qed.

(** The entry of column [j] in the dense row of a sample: 1 when the
    class of that column is one of the labels of the sample, else 0. *)
Lemma dense_row_entry cm classes labels row j r :
  NoDup cm → classes = sorted_unique cm →
  row_of_sample cm labels row → classes !! j = Some r →
  toarray_row (length classes)
    ((λ k, default 0 ((searchsorted classes <$> cm) !! k)) <$> row) !! j
  = Some (if decide (r ∈ labels) then 1%Z else 0%Z).
Proof.
  intros Hnd -> (Hrow & Hin & Hidx) Hj.
  set (classes := sorted_unique cm) in *.
  assert (StronglySorted str_lt classes) as Hsorted
    by apply StronglySorted_sorted_unique.
  assert (NoDup classes) as Hndc by apply NoDup_sorted_unique.
  rewrite lookup_toarray_row by by eapply lookup_lt_Some.
  f_equal. rewrite length_filter_fmap.
  assert (∀ k, k ∈ row →
    default 0 ((searchsorted classes <$> cm) !! k) = j ↔ cm !! k = Some r)
    as Hcol.
  { intros k (l & Hl & Hk)%Hidx. rewrite list_lookup_fmap, Hk. simpl.
    assert (classes !! searchsorted classes l = Some l) as Hpos.
    { apply searchsorted_lookup; [done|].
      apply elem_of_sorted_unique. by eapply list_elem_of_lookup_2. }
    split.
    - intros <-. congruence.
    - intros [= ->]. exact (NoDup_lookup _ _ _ _ Hndc Hpos Hj). }
  destruct (decide (r ∈ labels)) as [Hr|Hr].
  - destruct (list_elem_of_lookup_1 _ _ (Hin r Hr)) as [k0 Hk0].
    rewrite (length_filter_unique _ _ k0); [done|done| |].
    + apply Hidx. eauto.
    + intros k Hk. simpl. rewrite (Hcol k Hk). split; [|by intros ->].
      intros Hkr. exact (NoDup_lookup _ _ _ _ Hnd Hkr Hk0).
  - rewrite filter_none; [done|].
    intros k Hk. simpl. rewrite (Hcol k Hk). intros Hkr. apply Hr.
    apply Hidx in Hk as (l & Hl & Hkl). congruence.
Qed.

Lemma MultiLabelBinarizer_fit_transform_spec y encoded classes_ :
  MultiLabelBinarizer_fit_transform y = (encoded, classes_) →
  StronglySorted str_lt classes_ ∧
  (∀ r, r ∈ classes_ ↔ ∃ labels, labels ∈ y ∧ r ∈ labels) ∧
  length encoded = length y ∧
  ∀ i labels, y !! i = Some labels →
    ∃ row, encoded !! i = Some row ∧ length row = length classes_ ∧
      ∀ j r, classes_ !! j = Some r →
        row !! j = Some (if decide (r ∈ labels) then 1%Z else 0%Z).
Proof.
  unfold MultiLabelBinarizer_fit_transform, mlb_transform.
  destruct (foldl transform_sample ([], []) y) as [cm rows] eqn:Hfold.
  cbv zeta. intros [= <- <-].
  destruct (mlb_transform_spec y [] [] [] cm rows) as (Hnd & Hrows & Hmem);
    [apply NoDup_nil_2|constructor|done|]. simpl in Hrows.
  split_and!.
  - apply StronglySorted_sorted_unique.
  - intros r. rewrite elem_of_sorted_unique, Hmem.
    split; [|by right]. by intros [[]%elem_of_nil|?].
  - rewrite !length_fmap. symmetry. by eapply Forall2_length.
  - intros i labels Hi.
    destruct (Forall2_lookup_l _ _ _ _ _ Hrows Hi) as (row & Hrow & Hok).
    eexists. split; [by rewrite !list_lookup_fmap, Hrow|].
    split; [apply length_toarray_row|].
    intros j r Hj. by eapply dense_row_entry.
Qed.

Lemma length_MultiLabelBinarizer_fit_transform y :
  length (MultiLabelBinarizer_fit_transform y).1 = length y.
Proof.
  destruct (MultiLabelBinarizer_fit_transform y) as [encoded classes_] eqn:H.
  by apply MultiLabelBinarizer_fit_transform_spec in H as (_ & _ & ? & _).
Qed.

(** ** [dict_to_tensors] in closed form *)

Lemma StronglySorted_str_lt_unique (l1 l2 : list string) :
  StronglySorted str_lt l1 → StronglySorted str_lt l2 →
  (∀ x, x ∈ l1 ↔ x ∈ l2) → l1 = l2.
Proof.
  intros Hs1. revert l2. induction Hs1 as [|x l1 Hs1 IH Hx];
    intros l2 Hs2 Hmem.
  - destruct l2 as [|y l2]; [done|].
    assert (y ∈ []) as []%elem_of_nil. apply Hmem. left.
  - rewrite Forall_forall in Hx.
    destruct Hs2 as [|y l2 Hs2 Hy].
    { assert (x ∈ []) as []%elem_of_nil. apply Hmem. left. }
    rewrite Forall_forall in Hy.
    assert (x = y) as <-.
    { assert (x ∈ y :: l2) as [?|Hx2]%elem_of_cons by (apply Hmem; left);
        [done|].
      assert (y ∈ x :: l1) as [?|Hy1]%elem_of_cons by (apply Hmem; left);
        [done|].
      destruct (str_lt_irrefl x). eapply str_lt_trans; [by apply Hx|].
      by apply Hy. }
    f_equal. apply IH; [done|]. intros z. split; intros Hz.
    + assert (z ∈ x :: l2) as [->|?]%elem_of_cons by (apply Hmem; by right);
        [|done].
      destruct (str_lt_irrefl x). by apply Hx.
    + assert (z ∈ x :: l1) as [->|?]%elem_of_cons by (apply Hmem; by right);
        [|done].
      destruct (str_lt_irrefl x). by apply Hy.
Qed.

Lemma sorted_unique_ext (l1 l2 : list string) :
  (∀ x, x ∈ l1 ↔ x ∈ l2) → sorted_unique l1 = sorted_unique l2.
Proof.
  intros Hmem. apply StronglySorted_str_lt_unique;
    [apply StronglySorted_sorted_unique..|].
  intros x. by rewrite !elem_of_sorted_unique.
Qed.

Lemma list_eq_fmap_lookup {A B : Type} (f : A → B) (l : list A) (k : list B) :
  length k = length l →
  (∀ i x, l !! i = Some x → k !! i = Some (f x)) →
  k = f <$> l.
Proof.
  intros Hlen Hlookup. apply list_eq. intros i. rewrite list_lookup_fmap.
  destruct (l !! i) as [x|] eqn:Hi; simpl; [by apply Hlookup|].
  apply lookup_ge_None. apply lookup_ge_None in Hi. lia.
Qed.

Lemma MultiLabelBinarizer_fit_transform_closed y :
  MultiLabelBinarizer_fit_transform y
  = (multi_hot_row (sorted_unique (mjoin y)) <$> y, sorted_unique (mjoin y)).
Proof.
  destruct (MultiLabelBinarizer_fit_transform y) as [encoded classes_] eqn:H.
  apply MultiLabelBinarizer_fit_transform_spec in H
    as (Hsorted & Hmem & Hlen & Hrows).
  assert (classes_ = sorted_unique (mjoin y)) as <-.
  { apply StronglySorted_str_lt_unique;
      [done|apply StronglySorted_sorted_unique|].
    intros r. rewrite elem_of_sorted_unique, Hmem, list_elem_of_join.
    split; intros (l & ? & ?); by exists l. }
  f_equal. apply list_eq_fmap_lookup; [done|].
  intros i labels Hi. destruct (Hrows i labels Hi) as (row & -> & Hrow & Hent).
  f_equal. unfold multi_hot_row. apply list_eq_fmap_lookup; [done|].
  intros j r Hj. by apply Hent.
Qed.

Lemma dict_to_tensors_closed (eng_to_rad : pydict (list string)) :
  eng_to_rad ≠ [] →
  dict_to_tensors eng_to_rad
  = Return
      (binarized_row (np_asarray (sorted_unique (dict_keys eng_to_rad)))
         <$> np_asarray (dict_keys eng_to_rad),
       multi_hot_row (sorted_unique (mjoin (dict_values eng_to_rad)))
         <$> dict_values eng_to_rad,
       np_asarray (sorted_unique (dict_keys eng_to_rad)),
       sorted_unique (mjoin (dict_values eng_to_rad))).
Proof.
  intros Hne.
  assert (dict_keys eng_to_rad ≠ []) as Hkeys.
  { unfold dict_keys. by destruct eng_to_rad. }
  unfold dict_to_tensors, dict_to_tensors_with, LabelBinarizer_fit_transform.
  rewrite decide_False by (by destruct (dict_keys eng_to_rad)).
  rewrite label_binarize_closed by done. simpl.
  rewrite MultiLabelBinarizer_fit_transform_closed. simpl.
  unfold tensors_of_encoded, torch_tensor, py_assert.
  rewrite bool_decide_eq_true_2; [done|].
  unfold np_asarray, dict_keys, dict_values. by rewrite !length_fmap.
Qed.

(** The empty dictionary is refused by the first encoder. *)
Lemma dict_to_tensors_empty :
  dict_to_tensors [] = Raise (ValueError "y has 0 samples: []").
Proof. reflexivity. Qed.

(** ** [get_tensor_from_word] *)

Lemma snd_imap {A B : Type} (f : nat → A → B * A) (l : list A) :
  (∀ i x, (f i x).2 = x) → (imap f l).*2 = l.
Proof.
  revert f. induction l as [|x l IH]; intros f Hf; [done|].
  simpl. rewrite Hf. f_equal. apply IH. intros i y. apply Hf.
Qed.

Lemma foldl_insert_absent (ivs : list (nat * string)) (m : gmap string nat)
    (word : string) :
  word ∉ ivs.*2 →
  foldl (λ m iv, <[iv.2 := iv.1]> m) m ivs !! word = m !! word.
Proof.
  revert m. induction ivs as [|[i v] ivs IH]; intros m; [done|].
  rewrite fmap_cons, not_elem_of_cons. simpl. intros [Hne Hin].
  rewrite IH by done. by apply lookup_insert_ne.
Qed.

Lemma word_to_idx_absent eng_vocab word :
  word ∉ eng_vocab → word_to_idx eng_vocab !! word = None.
Proof.
  intros Hin. unfold word_to_idx. rewrite foldl_insert_absent; [done|].
  by rewrite snd_imap.
Qed.

Lemma get_tensor_from_word_absent {A : Type} (is_one : A → bool)
    (word : string) (eng_tens : list (list A)) (eng_vocab : list string) :
  word ∉ eng_vocab →
  get_tensor_from_word is_one word eng_tens eng_vocab
  = Raise (RuntimeError "Word is not in vocabulary!").
Proof.
  intros Hin. unfold get_tensor_from_word.
  rewrite word_to_idx_absent by done.
  by rewrite decide_False by (by intros [? ?]).
Qed.

(** ** The one-hot rows of a vocabulary of three words or more *)

Lemma binarized_row_multiclass classes label :
  (3 ≤ length classes)%nat →
  binarized_row classes label
  = toarray_row (length classes) [searchsorted classes label].
Proof.
  intros Hlen. unfold binarized_row.
  rewrite (decide_False (P:=(_ = 1))) by lia.
  by rewrite (decide_False (P:=(_ < 3)%nat)) by lia.
Qed.

Lemma elem_of_np_asarray_sorted_unique y w :
  w ∈ y → strip_nul w ∈ np_asarray (sorted_unique y).
Proof.
  intros Hw. apply list_elem_of_fmap. exists w.
  by rewrite elem_of_sorted_unique.
Qed.

Lemma length_np_asarray_sorted_unique y :
  NoDup y → length (np_asarray (sorted_unique y)) = length y.
Proof.
  intros Hnd. unfold np_asarray.
  by rewrite length_fmap, length_sorted_unique, remove_dups_NoDup.
Qed.

(** The row of a key is one-hot, and its 1.0 is at a position where the
    vocabulary holds the key as the array gives it back. *)
Lemma dict_to_tensors_one_hot (eng_to_rad : pydict (list string)) :
  wf_dict eng_to_rad → (3 ≤ length eng_to_rad)%nat →
  ∃ eng_tensor rad_tensor eng_vocab rad_vocab,
    dict_to_tensors eng_to_rad
    = Return (eng_tensor, rad_tensor, eng_vocab, rad_vocab) ∧
    ∀ i w, dict_keys eng_to_rad !! i = Some w →
      ∃ v k, eng_tensor !! i = Some v ∧ one_hot (length eng_vocab) v ∧
        v !! k = Some 1%Z ∧ eng_vocab !! k = Some (strip_nul w).
Proof.
  intros Hwf Hlen. do 4 eexists. split.
  { apply dict_to_tensors_closed. intros ->. simpl in Hlen. lia. }
  intros i w Hi.
  set (classes := np_asarray (sorted_unique (dict_keys eng_to_rad))).
  assert (length classes = length eng_to_rad) as Hn.
  { unfold classes. rewrite length_np_asarray_sorted_unique by done.
    unfold dict_keys. by rewrite length_fmap. }
  assert (classes !! searchsorted classes (strip_nul w) = Some (strip_nul w))
    as Hpos.
  { apply searchsorted_lookup_le; [apply StronglySorted_np_asarray|].
    apply elem_of_np_asarray_sorted_unique. by eapply list_elem_of_lookup_2. }
  pose proof (lookup_lt_Some _ _ _ Hpos) as Hlt.
  exists (toarray_row (length classes) [searchsorted classes (strip_nul w)]),
    (searchsorted classes (strip_nul w)).
  split_and!.
  - unfold np_asarray. rewrite !list_lookup_fmap, Hi. simpl.
    by rewrite binarized_row_multiclass by lia.
  - by apply one_hot_toarray_row.
  - rewrite lookup_toarray_row by done. by rewrite filter_cons_True.
  - done.
Qed.

(** [str_lt] is the lexicographic order on the bytes of two strings. *)
Lemma str_lt_lexicographic a s b t :
  (str_lt (String a s) (String b t)
   ↔ (Ascii.N_of_ascii a < Ascii.N_of_ascii b)%N ∨ a = b ∧ str_lt s t) ∧
  str_lt "" (String b t) ∧ ¬ str_lt s "".
Proof.
  unfold str_lt. split_and!; [|done|by destruct s].
  simpl. unfold Ascii.compare.
  destruct (N.compare_spec (Ascii.N_of_ascii a) (Ascii.N_of_ascii b)) as [Heq|Hlt|Hgt].
  - assert (a = b) as ->.
    { by rewrite <-(Ascii.ascii_N_embedding a), <-(Ascii.ascii_N_embedding b), Heq. }
    split; [by right|]. intros [?|[_ ?]]; [lia|done].
  - split; [by left|done].
  - split; [done|]. intros [?|[-> _]]; lia.
Qed.

Lemma dict_keys_derive kanji_to_rads (eng_to_kanji : pydict (list string)) :
  dict_keys (derive kanji_to_rads <$> eng_to_kanji) = dict_keys eng_to_kanji.
Proof. unfold dict_keys. rewrite <-list_fmap_compose. by apply list_fmap_ext. Qed.

(** * The claims *)

(** ** The derived mapping *)

(** C1: for a dictionary [eng_to_kanji], [create_eng_to_rads] returns a
    mapping in which the list of every word is built by walking the
    kanji of the word in order and appending each radical of each kanji
    that has an entry unless the list already holds it
    ([word_radicals]); that list is the first-seen-order deduplication
    of the radicals met on the way. On kanjiToRadicals = {火: [fire],
    木: [tree, wood]} and englishToKanji = {forest: [木, 木]} the result
    is {forest: [tree, wood]}. *)
Theorem create_eng_to_rads_first_seen
    (kanji_to_rads : gmap string (list string))
    (eng_to_kanji : pydict (list string)) :
  wf_dict eng_to_kanji →
  (∃ eng_to_rads,
     create_eng_to_rads kanji_to_rads eng_to_kanji = Return eng_to_rads ∧
     ∀ w kanjis, (w, kanjis) ∈ eng_to_kanji →
       getitem eng_to_rads w = Return (word_radicals kanji_to_rads kanjis) ∧
       word_radicals kanji_to_rads kanjis
       = first_seen [] (radical_stream kanji_to_rads kanjis)) ∧
  create_eng_to_rads sample_kanji_to_rads sample_eng_to_kanji
  = Return [("forest", ["tree"; "wood"])].
Proof.
  intros Hwf. split; [|by vm_compute].
  exists (derive kanji_to_rads <$> eng_to_kanji).
  split; [by apply create_eng_to_rads_derive|].
  intros w kanjis Hin. split; [|apply word_radicals_first_seen].
  apply getitem_wf.
  - pose proof (dict_keys_derive kanji_to_rads eng_to_kanji) as Hkeys.
    unfold wf_dict, dict_keys in *. by rewrite Hkeys.
  - apply list_elem_of_fmap. by exists (w, kanjis).
Qed.

Lemma create_eng_to_rads_first_seen_witness :
  getitem [("forest", ["tree"; "wood"])] "forest"
  = Return (word_radicals sample_kanji_to_rads ["木"; "木"]).
Proof.
  destruct (create_eng_to_rads_first_seen sample_kanji_to_rads
              sample_eng_to_kanji) as [(d & Hd & Hwords) Hexample].
  { unfold wf_dict. simpl. apply NoDup_singleton. }
  rewrite Hexample in Hd. injection Hd as <-.
  apply (Hwords "forest" ["木"; "木"]). left.
Defined.

(** C2: the mapping returned by [create_eng_to_rads] has the keys of
    [eng_to_kanji], no more and no fewer (and in the same order); a word
    none of whose kanji has an entry in [kanji_to_rads] is kept and is
    mapped to the empty list. With "?" absent, {unknown: [?]} gives
    {unknown: []}. *)
Theorem create_eng_to_rads_keys
    (kanji_to_rads : gmap string (list string))
    (eng_to_kanji : pydict (list string)) :
  wf_dict eng_to_kanji →
  ∃ eng_to_rads,
    create_eng_to_rads kanji_to_rads eng_to_kanji = Return eng_to_rads ∧
    dict_keys eng_to_rads = dict_keys eng_to_kanji ∧
    (∀ w kanjis, (w, kanjis) ∈ eng_to_kanji →
       Forall (λ kanji, kanji_to_rads !! kanji = None) kanjis →
       getitem eng_to_rads w = Return []) ∧
    (kanji_to_rads !! "?" = None →
     create_eng_to_rads kanji_to_rads [("unknown", ["?"])]
     = Return [("unknown", [])]).
Proof.
  intros Hwf. exists (derive kanji_to_rads <$> eng_to_kanji).
  pose proof (dict_keys_derive kanji_to_rads eng_to_kanji) as Hkeys.
  split_and!; [by apply create_eng_to_rads_derive|done| |].
  - intros w kanjis Hin Habsent. apply getitem_wf.
    + unfold wf_dict, dict_keys in *. by rewrite Hkeys.
    + apply list_elem_of_fmap. exists (w, kanjis). split; [|done].
      unfold derive, word_radicals. simpl.
      by rewrite foldl_add_radicals_of_absent.
  - intros Habsent. rewrite create_eng_to_rads_derive.
    + unfold derive, word_radicals, add_radicals_of. simpl.
      by rewrite Habsent.
    + unfold wf_dict. simpl. apply NoDup_singleton.
Qed.

Lemma create_eng_to_rads_keys_witness :
  ∃ eng_to_rads,
    create_eng_to_rads sample_kanji_to_rads [("unknown", ["?"])]
    = Return eng_to_rads ∧
    dict_keys eng_to_rads = ["unknown"] ∧
    getitem eng_to_rads "unknown" = Return [].
Proof.
  destruct (create_eng_to_rads_keys sample_kanji_to_rads
              [("unknown", ["?"])]) as (d & Hd & Hkeys & Hempty & _).
  { unfold wf_dict. simpl. apply NoDup_singleton. }
  exists d. split_and!; [done|done|].
  apply (Hempty "unknown" ["?"]); [left|].
  repeat constructor.
Defined.

(** C3: whatever the two dictionaries are, [create_eng_to_rads] returns a
    mapping, and no list of that mapping holds a radical twice. *)
Theorem create_eng_to_rads_no_duplicates
    (kanji_to_rads : gmap string (list string))
    (eng_to_kanji : pydict (list string)) :
  ∃ eng_to_rads,
    create_eng_to_rads kanji_to_rads eng_to_kanji = Return eng_to_rads ∧
    Forall (λ entry, NoDup entry.2) eng_to_rads.
Proof.
  destruct (for_each_add_word_total kanji_to_rads eng_to_kanji
              (dict_keys eng_to_kanji) []) as (d & Hd & Hall); [done|done|].
  exists d. split; [done|].
  eapply Forall_impl; [done|]. intros entry [kanjis ->].
  apply NoDup_word_radicals.
Qed.

(** C9: [create_eng_to_rads] returns normally on every pair of
    dictionaries; a kanji without an entry in [kanji_to_rads] raises
    nothing and leaves the mapping under construction as it is, so it
    adds no radical to the list of the word. *)
Theorem create_eng_to_rads_never_raises
    (kanji_to_rads : gmap string (list string))
    (eng_to_kanji : pydict (list string)) :
  (∃ eng_to_rads,
     create_eng_to_rads kanji_to_rads eng_to_kanji = Return eng_to_rads) ∧
  (∀ kanji, kanji_to_rads !! kanji = None →
     (∀ eng_word eng_to_rads,
        add_kanji kanji_to_rads eng_word eng_to_rads kanji
        = Return eng_to_rads) ∧
     (∀ before after,
        word_radicals kanji_to_rads (before ++ kanji :: after)
        = word_radicals kanji_to_rads (before ++ after))).
Proof.
  split.
  - destruct (for_each_add_word_total kanji_to_rads eng_to_kanji
                (dict_keys eng_to_kanji) []) as (d & Hd & _); [done|done|].
    by exists d.
  - intros kanji Habsent. split.
    + intros eng_word eng_to_rads. unfold add_kanji.
      rewrite decide_False; [done|]. rewrite Habsent. by intros [? ?].
    + intros before after. unfold word_radicals.
      rewrite !foldl_app. simpl. unfold add_radicals_of at 2.
      by rewrite Habsent.
Qed.

Lemma create_eng_to_rads_never_raises_witness :
  add_kanji sample_kanji_to_rads "unknown" [("unknown", [])] "?"
  = Return [("unknown", [])] ∧
  word_radicals sample_kanji_to_rads (["木"] ++ "?" :: ["火"])
  = word_radicals sample_kanji_to_rads (["木"] ++ ["火"]).
Proof.
  destruct (create_eng_to_rads_never_raises sample_kanji_to_rads
              sample_eng_to_kanji) as [_ Hskip].
  destruct (Hskip "?") as [Hbody Hlist]; [by vm_compute|].
  split; [apply Hbody|apply Hlist].
Defined.

(** ** The encoding *)

(** C4: the rows of the input tensor are one-hot vectors over the English
    vocabulary; [dict_to_tensors_one_hot] shows it for three words or
    more. The code misses the smaller dictionaries: on {a: [x], b: []}
    the vocabulary has two words and each row has a single entry, the row
    of "a" without any 1.0, and on {a: [x]} the only row is [0.0]. *)
Theorem dict_to_tensors_binary_rows :
  dict_to_tensors two_words
  = Return ([[0%Z]; [1%Z]], [[1%Z]; [0%Z]], ["a"; "b"], ["x"]) ∧
  ¬ one_hot (length ["a"; "b"]) [0%Z] ∧
  ¬ one_hot (length ["a"; "b"]) [1%Z] ∧
  dict_to_tensors one_word = Return ([[0%Z]], [[1%Z]], ["a"], ["x"]) ∧
  ¬ one_hot (length ["a"]) [0%Z].
Proof.
  split_and!; [by vm_compute| | |by vm_compute|].
  - intros [Hlen _]. done.
  - intros [Hlen _]. done.
  - intros [_ (k & Hk & _)]. by destruct k.
Qed.

(** C5: on a non-empty dictionary [dict_to_tensors] returns, the target
    tensor has one row per entry, and in the row of the i-th entry the
    column of a radical of the radical vocabulary holds 1.0 when that
    radical occurs in the list of the entry and 0.0 when it does not;
    every radical of the list has such a column. *)
Theorem dict_to_tensors_multi_hot (eng_to_rad : pydict (list string)) :
  eng_to_rad ≠ [] →
  ∃ eng_tensor rad_tensor eng_vocab rad_vocab,
    dict_to_tensors eng_to_rad
    = Return (eng_tensor, rad_tensor, eng_vocab, rad_vocab) ∧
    length rad_tensor = length eng_to_rad ∧
    ∀ i w rads, eng_to_rad !! i = Some (w, rads) →
      ∃ target, rad_tensor !! i = Some target ∧
        length target = length rad_vocab ∧
        (∀ j r, rad_vocab !! j = Some r →
           target !! j = Some (if decide (r ∈ rads) then 1%Z else 0%Z)) ∧
        (∀ r, r ∈ rads →
           ∃ j, rad_vocab !! j = Some r ∧ target !! j = Some 1%Z).
Proof.
  intros Hne. do 4 eexists. split; [by apply dict_to_tensors_closed|].
  set (rad_vocab := sorted_unique (mjoin (dict_values eng_to_rad))).
  split; [unfold dict_values; by rewrite !length_fmap|].
  intros i w rads Hi. exists (multi_hot_row rad_vocab rads).
  assert (∀ j r, rad_vocab !! j = Some r →
            multi_hot_row rad_vocab rads !! j
            = Some (if decide (r ∈ rads) then 1%Z else 0%Z)) as Hentry.
  { intros j r Hj. unfold multi_hot_row. by rewrite list_lookup_fmap, Hj. }
  split_and!.
  - unfold dict_values. by rewrite !list_lookup_fmap, Hi.
  - unfold multi_hot_row. by rewrite length_fmap.
  - done.
  - intros r Hr.
    assert (r ∈ rad_vocab) as [j Hj]%list_elem_of_lookup_1.
    { apply elem_of_sorted_unique, list_elem_of_join. exists rads.
      split; [done|]. unfold dict_values. apply list_elem_of_fmap.
      exists (w, rads). split; [done|]. by eapply list_elem_of_lookup_2. }
    exists j. split; [done|]. rewrite (Hentry j r Hj).
    by rewrite decide_True.
Qed.

Lemma dict_to_tensors_multi_hot_witness :
  ∃ eng_tensor rad_tensor eng_vocab rad_vocab,
    dict_to_tensors sample_eng_to_rads
    = Return (eng_tensor, rad_tensor, eng_vocab, rad_vocab) ∧
    length rad_tensor = length sample_eng_to_rads ∧
    ∀ i w rads, sample_eng_to_rads !! i = Some (w, rads) →
      ∃ target, rad_tensor !! i = Some target ∧
        length target = length rad_vocab ∧
        (∀ j r, rad_vocab !! j = Some r →
           target !! j = Some (if decide (r ∈ rads) then 1%Z else 0%Z)) ∧
        (∀ r, r ∈ rads →
           ∃ j, rad_vocab !! j = Some r ∧ target !! j = Some 1%Z).
Proof. apply (dict_to_tensors_multi_hot sample_eng_to_rads). discriminate. Defined.

(** C6: the 1.0 of the input vector of a word sits at the position of
    that word in the English vocabulary; [dict_to_tensors_one_hot] shows
    it for three words or more (a word being read without the NUL
    characters at its end). The code misses the two-word dictionary
    {a: [x], b: []}: the vector of "b" is [1.0], whose position 0 is "a"
    in the vocabulary, the vector of "a" is [0.0], and
    [get_tensor_from_word] then hands out the row of "b" for "a" and
    leaves the row for "b" out of reach. *)
Theorem dict_to_tensors_binary_round_trip :
  ∃ eng_tensor rad_tensor eng_vocab rad_vocab,
    dict_to_tensors two_words
    = Return (eng_tensor, rad_tensor, eng_vocab, rad_vocab) ∧
    dict_keys two_words = ["a"; "b"] ∧
    eng_tensor !! 0 = Some [0%Z] ∧
    eng_tensor !! 1 = Some [1%Z] ∧
    eng_vocab !! 0 = Some "a" ∧
    get_tensor_from_word (Z.eqb 1) "a" eng_tensor eng_vocab = Return [1%Z] ∧
    get_tensor_from_word (Z.eqb 1) "b" eng_tensor eng_vocab = Raise IndexError.
Proof. do 4 eexists. by vm_compute. Qed.

(** C7: a word that is not in the vocabulary makes
    [get_tensor_from_word] raise the error "Word is not in vocabulary!",
    whatever the tensors are; no vector is returned. *)
Theorem get_tensor_from_word_not_found {A : Type} (is_one : A → bool)
    (word : string) (eng_tens : list (list A)) (eng_vocab : list string) :
  NoDup eng_vocab → word ∉ eng_vocab →
  get_tensor_from_word is_one word eng_tens eng_vocab
  = Raise (RuntimeError "Word is not in vocabulary!") ∧
  ∀ tens, get_tensor_from_word is_one word eng_tens eng_vocab ≠ Return tens.
Proof.
  intros _ Hin. rewrite get_tensor_from_word_absent by done. done.
Qed.

Lemma get_tensor_from_word_not_found_witness :
  get_tensor_from_word (Z.eqb 1) "c" [[1%Z; 0%Z]; [0%Z; 1%Z]] ["a"; "b"]
  = Raise (RuntimeError "Word is not in vocabulary!") ∧
  ∀ tens, get_tensor_from_word (Z.eqb 1) "c" [[1%Z; 0%Z]; [0%Z; 1%Z]]
            ["a"; "b"] ≠ Return tens.
Proof.
  apply get_tensor_from_word_not_found.
  - apply (bool_decide_unpack _). by vm_compute.
  - apply (bool_decide_unpack _). by vm_compute.
Defined.




(** C10: the English vocabulary is meant to be the keys of [eng_to_rad]
    in ascending lexicographic order, as the radical vocabulary is the
    radicals in that order. The code loses a key that ends in a NUL
    character: on the three keys "a", "a" followed by NUL, and "b" the
    vocabulary that comes back reads a, a, b, which is not the set of the
    keys and holds "a" twice, and the first two keys share one row. *)
Theorem dict_to_tensors_nul_keys :
  dict_keys nul_keys = ["a"; a_nul; "b"] ∧
  NoDup (dict_keys nul_keys) ∧
  dict_to_tensors nul_keys
  = Return ([[1%Z; 0%Z; 0%Z]; [1%Z; 0%Z; 0%Z]; [0%Z; 0%Z; 1%Z]],
            [[1%Z; 0%Z]; [0%Z; 1%Z]; [0%Z; 0%Z]],
            ["a"; "a"; "b"], ["x"; "y"]) ∧
  (a_nul ∉ ["a"; "a"; "b"]) ∧
  (¬ NoDup ["a"; "a"; "b"]) ∧
  (¬ StronglySorted str_lt ["a"; "a"; "b"]).
Proof.
  split_and!.
  - done.
  - apply (bool_decide_unpack _). by vm_compute.
  - by vm_compute.
  - apply (bool_decide_unpack _). by vm_compute.
  - apply (bool_decide_unpack _). by vm_compute.
  - intros [_ Hlt]%StronglySorted_inv. apply Forall_cons in Hlt as [Hlt _].
    by apply str_lt_irrefl in Hlt.
Qed.

(** * Further properties of the three functions *)

(** ** [create_eng_to_rads]: where the radicals come from *)

Lemma elem_of_add_radical rads rad r :
  r ∈ add_radical rads rad ↔ r ∈ rads ∨ r = rad.
Proof.
  unfold add_radical. destruct (decide (rad ∈ rads)).
  - split; [by left|]. by intros [?| ->].
  - by rewrite elem_of_app, list_elem_of_singleton.
Qed.

Lemma elem_of_foldl_add_radical rs rads r :
  r ∈ foldl add_radical rads rs ↔ r ∈ rads ∨ r ∈ rs.
Proof.
  revert rads. induction rs as [|rad rs IH]; intros rads; simpl.
  - rewrite elem_of_nil. tauto.
  - rewrite IH, elem_of_add_radical, elem_of_cons. tauto.
Qed.

Lemma elem_of_radical_stream kanji_to_rads kanjis r :
  r ∈ radical_stream kanji_to_rads kanjis
  ↔ ∃ kanji rs, kanji ∈ kanjis ∧ kanji_to_rads !! kanji = Some rs ∧ r ∈ rs.
Proof.
  unfold radical_stream. rewrite list_elem_of_join. split.
  - intros (rs & Hr & (kanji & Hk & Hrs)%list_elem_of_omap). eauto.
  - intros (kanji & rs & Hk & Hrs & Hr). exists rs. split; [done|].
    apply list_elem_of_omap. eauto.
Qed.

Lemma elem_of_word_radicals kanji_to_rads kanjis r :
  r ∈ word_radicals kanji_to_rads kanjis
  ↔ ∃ kanji rs, kanji ∈ kanjis ∧ kanji_to_rads !! kanji = Some rs ∧ r ∈ rs.
Proof.
  unfold word_radicals.
  rewrite foldl_add_radicals_of_stream, elem_of_foldl_add_radical.
  rewrite elem_of_radical_stream, elem_of_nil. tauto.
Qed.

Lemma wf_dict_derive kanji_to_rads (eng_to_kanji : pydict (list string)) :
  wf_dict eng_to_kanji → wf_dict (derive kanji_to_rads <$> eng_to_kanji).
Proof.
  pose proof (dict_keys_derive kanji_to_rads eng_to_kanji) as Hkeys.
  unfold wf_dict, dict_keys in *. by rewrite Hkeys.
Qed.

Lemma getitem_derive kanji_to_rads (eng_to_kanji : pydict (list string))
    w kanjis :
  wf_dict eng_to_kanji → (w, kanjis) ∈ eng_to_kanji →
  getitem (derive kanji_to_rads <$> eng_to_kanji) w
  = Return (word_radicals kanji_to_rads kanjis).
Proof.
  intros Hwf Hin. apply getitem_wf; [by apply wf_dict_derive|].
  apply list_elem_of_fmap. by exists (w, kanjis).
Qed.

(** X1: every radical in the list of a word comes from a kanji of that
    word that has an entry, and every radical of such a kanji is in the
    list. *)
Theorem create_eng_to_rads_traces
    (kanji_to_rads : gmap string (list string))
    (eng_to_kanji : pydict (list string)) :
  wf_dict eng_to_kanji →
  ∃ eng_to_rads,
    create_eng_to_rads kanji_to_rads eng_to_kanji = Return eng_to_rads ∧
    ∀ w kanjis, (w, kanjis) ∈ eng_to_kanji →
      ∃ rads, getitem eng_to_rads w = Return rads ∧
        ∀ r, r ∈ rads
             ↔ ∃ kanji rs,
                 kanji ∈ kanjis ∧ kanji_to_rads !! kanji = Some rs ∧ r ∈ rs.
Proof.
  intros Hwf. exists (derive kanji_to_rads <$> eng_to_kanji).
  split; [by apply create_eng_to_rads_derive|].
  intros w kanjis Hin. exists (word_radicals kanji_to_rads kanjis).
  split; [by apply getitem_derive|]. apply elem_of_word_radicals.
Qed.

Lemma create_eng_to_rads_traces_witness :
  ∃ eng_to_rads,
    create_eng_to_rads sample_kanji_to_rads sample_eng_to_kanji
    = Return eng_to_rads ∧
    ∀ w kanjis, (w, kanjis) ∈ sample_eng_to_kanji →
      ∃ rads, getitem eng_to_rads w = Return rads ∧
        ∀ r, r ∈ rads
             ↔ ∃ kanji rs,
                 kanji ∈ kanjis ∧ sample_kanji_to_rads !! kanji = Some rs ∧
                 r ∈ rs.
Proof.
  apply (create_eng_to_rads_traces sample_kanji_to_rads sample_eng_to_kanji).
  unfold wf_dict. simpl. apply NoDup_singleton.
Defined.

(** ** [create_eng_to_rads]: repeated and added kanji *)

Lemma foldl_add_radical_subseteq rs rads :
  rs ⊆ rads → foldl add_radical rads rs = rads.
Proof.
  induction rs as [|rad rs IH]; intros Hsub; simpl; [done|].
  unfold add_radical at 2. rewrite decide_True by (apply Hsub; left).
  apply IH. intros r Hr. apply Hsub. by right.
Qed.

Lemma foldl_add_radicals_of_app kanji_to_rads rads kanjis1 kanjis2 :
  foldl (add_radicals_of kanji_to_rads) rads (kanjis1 ++ kanjis2)
  = foldl (add_radicals_of kanji_to_rads)
      (foldl (add_radicals_of kanji_to_rads) rads kanjis1) kanjis2.
Proof. apply foldl_app. Qed.

Lemma foldl_add_radicals_of_prefix kanji_to_rads kanjis rads :
  rads `prefix_of` foldl (add_radicals_of kanji_to_rads) rads kanjis.
Proof.
  rewrite foldl_add_radicals_of_stream, foldl_add_radical_first_seen.
  by apply prefix_app_r.
Qed.

(** A kanji met before adds nothing when it is met again. *)
Lemma word_radicals_repeated kanji_to_rads before kanji mid after :
  word_radicals kanji_to_rads (before ++ kanji :: mid ++ kanji :: after)
  = word_radicals kanji_to_rads (before ++ kanji :: mid ++ after).
Proof.
  unfold word_radicals.
  rewrite !foldl_add_radicals_of_app. simpl.
  rewrite !foldl_add_radicals_of_app. simpl. f_equal.
  set (acc := add_radicals_of kanji_to_rads
                (foldl (add_radicals_of kanji_to_rads) [] before) kanji).
  pose proof (foldl_add_radicals_of_prefix kanji_to_rads mid acc) as [ext ->].
  unfold add_radicals_of at 1.
  destruct (kanji_to_rads !! kanji) as [rs|] eqn:Hk; [|done].
  apply foldl_add_radical_subseteq. intros r Hr. apply elem_of_app. left.
  unfold acc, add_radicals_of. rewrite Hk.
  apply elem_of_foldl_add_radical. by right.
Qed.

Lemma wf_dict_replace {V : Type} (pre post : pydict V) w v v' :
  wf_dict (pre ++ (w, v) :: post) → wf_dict (pre ++ (w, v') :: post).
Proof. unfold wf_dict. by rewrite !fmap_app, !fmap_cons. Qed.

(** X2: writing a kanji a second time in the sequence of a word changes
    nothing in the returned mapping. *)
Theorem create_eng_to_rads_repeated_kanji
    (kanji_to_rads : gmap string (list string))
    (pre post : pydict (list string)) (w kanji : string)
    (before mid after : list string) :
  wf_dict (pre ++ (w, before ++ kanji :: mid ++ after) :: post) →
  create_eng_to_rads kanji_to_rads
    (pre ++ (w, before ++ kanji :: mid ++ kanji :: after) :: post)
  = create_eng_to_rads kanji_to_rads
      (pre ++ (w, before ++ kanji :: mid ++ after) :: post).
Proof.
  intros Hwf. rewrite !create_eng_to_rads_derive;
    [|done|by eapply wf_dict_replace].
  rewrite !fmap_app, !fmap_cons. unfold derive at 2 5. simpl.
  by rewrite word_radicals_repeated.
Qed.

Lemma create_eng_to_rads_repeated_kanji_witness :
  create_eng_to_rads sample_kanji_to_rads
    ([] ++ ("forest", [] ++ "木" :: ["火"] ++ "木" :: []) :: [])
  = create_eng_to_rads sample_kanji_to_rads
      ([] ++ ("forest", [] ++ "木" :: ["火"] ++ []) :: []).
Proof.
  apply create_eng_to_rads_repeated_kanji.
  unfold wf_dict. simpl. apply NoDup_singleton.
Defined.

(** X3: giving a word more kanji at the end of its sequence only appends
    to its list: the old list is a prefix of the new one, and the lists
    of the other words stay as they are. *)
Theorem create_eng_to_rads_more_kanji
    (kanji_to_rads : gmap string (list string))
    (pre post : pydict (list string)) (w : string)
    (kanjis more : list string) :
  wf_dict (pre ++ (w, kanjis) :: post) →
  ∃ eng_to_rads eng_to_rads' rads rads',
    create_eng_to_rads kanji_to_rads (pre ++ (w, kanjis) :: post)
    = Return eng_to_rads ∧
    create_eng_to_rads kanji_to_rads (pre ++ (w, kanjis ++ more) :: post)
    = Return eng_to_rads' ∧
    getitem eng_to_rads w = Return rads ∧
    getitem eng_to_rads' w = Return rads' ∧
    rads `prefix_of` rads' ∧
    ∀ w', w' ≠ w → getitem eng_to_rads' w' = getitem eng_to_rads w'.
Proof.
  intros Hwf.
  pose proof (wf_dict_replace pre post w kanjis (kanjis ++ more) Hwf) as Hwf'.
  do 4 eexists. split_and!.
  - by apply create_eng_to_rads_derive.
  - by apply create_eng_to_rads_derive.
  - apply getitem_derive; [done|]. apply elem_of_app. right. left.
  - apply getitem_derive; [done|]. apply elem_of_app. right. left.
  - unfold word_radicals. rewrite foldl_add_radicals_of_app.
    apply foldl_add_radicals_of_prefix.
  - intros w' Hne. rewrite !fmap_app, !fmap_cons.
    generalize (derive kanji_to_rads <$> pre). intros d.
    induction d as [|[k v] d IH]; simpl.
    + by rewrite !decide_False by done.
    + by rewrite IH.
Qed.

Lemma create_eng_to_rads_more_kanji_witness :
  ∃ eng_to_rads eng_to_rads' rads rads',
    create_eng_to_rads sample_kanji_to_rads ([] ++ ("forest", ["木"]) :: [])
    = Return eng_to_rads ∧
    create_eng_to_rads sample_kanji_to_rads
      ([] ++ ("forest", ["木"] ++ ["火"]) :: [])
    = Return eng_to_rads' ∧
    getitem eng_to_rads "forest" = Return rads ∧
    getitem eng_to_rads' "forest" = Return rads' ∧
    rads `prefix_of` rads' ∧
    ∀ w', w' ≠ "forest" → getitem eng_to_rads' w' = getitem eng_to_rads w'.
Proof.
  apply create_eng_to_rads_more_kanji.
  unfold wf_dict. simpl. apply NoDup_singleton.
Defined.

(** ** [dict_to_tensors]: the returned tuple in closed form *)

(** X4: on a non-empty dictionary [dict_to_tensors] returns, as English
    vocabulary, the sorted keys read back from an array (a key has lost
    the NUL characters at its end), as radical vocabulary the sorted
    radicals, one [binarized_row] per key read back from an array and one
    [multi_hot_row] per list of radicals, in the order of the entries of
    the dictionary. *)
Theorem dict_to_tensors_computes (eng_to_rad : pydict (list string)) :
  eng_to_rad ≠ [] →
  ∃ eng_vocab rad_vocab,
    dict_to_tensors eng_to_rad
    = Return (binarized_row eng_vocab <$> np_asarray (dict_keys eng_to_rad),
              multi_hot_row rad_vocab <$> dict_values eng_to_rad,
              eng_vocab, rad_vocab) ∧
    eng_vocab = np_asarray (sorted_unique (dict_keys eng_to_rad)) ∧
    rad_vocab = sorted_unique (mjoin (dict_values eng_to_rad)).
Proof. intros Hne. do 2 eexists. by rewrite dict_to_tensors_closed. Qed.

Lemma dict_to_tensors_computes_witness :
  ∃ eng_vocab rad_vocab,
    dict_to_tensors nul_keys
    = Return (binarized_row eng_vocab <$> np_asarray (dict_keys nul_keys),
              multi_hot_row rad_vocab <$> dict_values nul_keys,
              eng_vocab, rad_vocab) ∧
    eng_vocab = np_asarray (sorted_unique (dict_keys nul_keys)) ∧
    rad_vocab = sorted_unique (mjoin (dict_values nul_keys)).
Proof. apply (dict_to_tensors_computes nul_keys). discriminate. Defined.

(** X5: [dict_to_tensors] raises on the empty dictionary only, and what
    it raises there is the [ValueError] of the first encoder, whose
    message ends with the empty list. *)
Theorem dict_to_tensors_raises_on_empty_only
    (eng_to_rad : pydict (list string)) :
  match dict_to_tensors eng_to_rad with
  | Return _ => eng_to_rad ≠ []
  | Raise e => eng_to_rad = [] ∧ e = ValueError "y has 0 samples: []"
  end.
Proof.
  destruct eng_to_rad as [|entry d]; [done|].
  by rewrite dict_to_tensors_closed.
Qed.

(** ** [dict_to_tensors]: vocabularies of one and of two words *)

Lemma sorted_unique_singleton k : sorted_unique [k] = [k].
Proof.
  apply StronglySorted_str_lt_unique.
  - apply StronglySorted_sorted_unique.
  - by repeat constructor.
  - intros x. by rewrite elem_of_sorted_unique.
Qed.

Lemma sorted_unique_pair k1 k2 :
  str_lt k1 k2 →
  sorted_unique [k1; k2] = [k1; k2] ∧ sorted_unique [k2; k1] = [k1; k2].
Proof.
  intros Hlt.
  assert (StronglySorted str_lt [k1; k2]) as Hsorted
    by by repeat constructor.
  split; apply StronglySorted_str_lt_unique;
    try done; try apply StronglySorted_sorted_unique;
    intros x; rewrite elem_of_sorted_unique; [done|].
  rewrite !elem_of_cons. tauto.
Qed.

Lemma str_le_not_lt s1 s2 : str_le s1 s2 → ¬ str_lt s2 s1.
Proof.
  intros [Hlt| ->]%str_le_lt_eq; [by apply str_lt_asym|apply str_lt_irrefl].
Qed.

(** The rows over a vocabulary of two entries, equal or not. *)
Lemma binarized_row_pair_le s1 s2 :
  str_le s1 s2 →
  binarized_row [s1; s2] s1 = [0%Z] ∧
  binarized_row [s1; s2] s2 = [if decide (str_lt s1 s2) then 1%Z else 0%Z].
Proof.
  intros Hle. pose proof (str_le_not_lt _ _ Hle) as Hgt.
  unfold binarized_row, searchsorted. simpl.
  rewrite !filter_cons, !filter_nil.
  rewrite (decide_False (P:=str_lt s1 s1)) by apply str_lt_irrefl.
  rewrite (decide_False (P:=str_lt s2 s1)) by done.
  rewrite (decide_False (P:=str_lt s2 s2)) by apply str_lt_irrefl.
  by destruct (decide (str_lt s1 s2)).
Qed.

Lemma binarized_row_pair k1 k2 :
  str_lt k1 k2 →
  binarized_row [k1; k2] k1 = [0%Z] ∧ binarized_row [k1; k2] k2 = [1%Z].
Proof.
  intros Hlt.
  destruct (binarized_row_pair_le k1 k2) as [-> ->];
    [apply str_le_lt_eq; by left|].
  by rewrite decide_True.
Qed.

(** X6: with a single key the input tensor is the single row [0.0]; with
    two keys every input row has one entry, which is 1.0 for a key that,
    read without the NUL characters at its end, sorts after the other
    one, and 0.0 otherwise; the vocabulary lists the keys in sorted
    order, each without the NUL characters at its end. *)
Theorem dict_to_tensors_small_vocabulary
    (k1 k2 : string) (rads1 rads2 : list string) :
  k1 ≠ k2 →
  (∃ rad_tensor rad_vocab,
     dict_to_tensors [(k1, rads1)]
     = Return ([[0%Z]], rad_tensor, [strip_nul k1], rad_vocab)) ∧
  (∃ rad_tensor rad_vocab,
     dict_to_tensors [(k1, rads1); (k2, rads2)]
     = Return ([[if decide (str_lt (strip_nul k2) (strip_nul k1))
                 then 1%Z else 0%Z];
                [if decide (str_lt (strip_nul k1) (strip_nul k2))
                 then 1%Z else 0%Z]],
               rad_tensor,
               np_asarray
                 (if decide (str_lt k1 k2) then [k1; k2] else [k2; k1]),
               rad_vocab)).
Proof.
  intros Hne. split.
  - do 2 eexists. rewrite dict_to_tensors_closed by done.
    change (dict_keys [(k1, rads1)]) with [k1].
    by rewrite sorted_unique_singleton.
  - do 2 eexists. rewrite dict_to_tensors_closed by done.
    change (dict_keys [(k1, rads1); (k2, rads2)]) with [k1; k2].
    destruct (str_lt_trichotomy k1 k2 Hne) as [Hlt|Hlt].
    + assert (str_le (strip_nul k1) (strip_nul k2)) as Hle
        by (apply strip_nul_mono, str_le_lt_eq; by left).
      rewrite !(decide_True (P:=str_lt k1 k2)) by done.
      rewrite !(decide_False (P:=str_lt (strip_nul k2) (strip_nul k1)))
        by by apply str_le_not_lt.
      rewrite (proj1 (sorted_unique_pair _ _ Hlt)). simpl.
      by destruct (binarized_row_pair_le _ _ Hle) as [-> ->].
    + assert (str_le (strip_nul k2) (strip_nul k1)) as Hle
        by (apply strip_nul_mono, str_le_lt_eq; by left).
      rewrite !(decide_False (P:=str_lt k1 k2)) by by apply str_lt_asym.
      rewrite !(decide_False (P:=str_lt (strip_nul k1) (strip_nul k2)))
        by by apply str_le_not_lt.
      rewrite (proj2 (sorted_unique_pair _ _ Hlt)). simpl.
      by destruct (binarized_row_pair_le _ _ Hle) as [-> ->].
Qed.

Lemma dict_to_tensors_small_vocabulary_witness :
  (∃ rad_tensor rad_vocab,
     dict_to_tensors [("a", ["x"])]
     = Return ([[0%Z]], rad_tensor, [strip_nul "a"], rad_vocab)) ∧
  (∃ rad_tensor rad_vocab,
     dict_to_tensors [("a", ["x"]); (a_nul, [])]
     = Return ([[if decide (str_lt (strip_nul a_nul) (strip_nul "a"))
                 then 1%Z else 0%Z];
                [if decide (str_lt (strip_nul "a") (strip_nul a_nul))
                 then 1%Z else 0%Z]],
               rad_tensor,
               np_asarray
                 (if decide (str_lt "a" a_nul) then ["a"; a_nul]
                  else [a_nul; "a"]),
               rad_vocab)).
Proof. apply dict_to_tensors_small_vocabulary. discriminate. Defined.

Lemma np_asarray_nul_free (l : list string) :
  Forall (λ w, strip_nul w = w) l → np_asarray l = l.
Proof.
  unfold np_asarray. induction 1 as [|w l Hw _ IH]; [done|].
  by rewrite fmap_cons, Hw, IH.
Qed.

(** X20: on a non-empty dictionary the radical vocabulary is the radicals
    of all the lists in strictly ascending lexicographic order, and the
    English vocabulary is in ascending order and holds the keys as read
    without the NUL characters at their ends; when no key ends in a NUL
    character it is the keys in strictly ascending order. *)
Theorem dict_to_tensors_sorted_vocabularies
    (eng_to_rad : pydict (list string)) :
  eng_to_rad ≠ [] →
  ∃ eng_tensor rad_tensor eng_vocab rad_vocab,
    dict_to_tensors eng_to_rad
    = Return (eng_tensor, rad_tensor, eng_vocab, rad_vocab) ∧
    StronglySorted str_lt rad_vocab ∧
    (∀ r, r ∈ rad_vocab ↔ ∃ rads, rads ∈ dict_values eng_to_rad ∧ r ∈ rads) ∧
    StronglySorted str_le eng_vocab ∧
    (∀ w', w' ∈ eng_vocab
           ↔ ∃ w, w ∈ dict_keys eng_to_rad ∧ w' = strip_nul w) ∧
    (Forall (λ w, strip_nul w = w) (dict_keys eng_to_rad) →
     StronglySorted str_lt eng_vocab ∧
     ∀ w, w ∈ eng_vocab ↔ w ∈ dict_keys eng_to_rad).
Proof.
  intros Hne. do 4 eexists.
  split; [by apply dict_to_tensors_closed|]. split_and!.
  - apply StronglySorted_sorted_unique.
  - intros r. rewrite elem_of_sorted_unique, list_elem_of_join.
    split; intros (rads & ? & ?); by exists rads.
  - apply StronglySorted_np_asarray.
  - intros w'. unfold np_asarray. rewrite list_elem_of_fmap. split.
    + intros (w & -> & Hw). rewrite elem_of_sorted_unique in Hw.
      by exists w.
    + intros (w & Hw & ->). exists w. by rewrite elem_of_sorted_unique.
  - intros Hclean. rewrite np_asarray_nul_free.
    + split; [apply StronglySorted_sorted_unique|].
      intros w. apply elem_of_sorted_unique.
    + rewrite Forall_forall in Hclean. apply Forall_forall.
      intros w Hw. apply Hclean. by rewrite elem_of_sorted_unique in Hw.
Qed.

Lemma dict_to_tensors_sorted_vocabularies_witness :
  ∃ eng_tensor rad_tensor eng_vocab rad_vocab,
    dict_to_tensors sample_eng_to_rads
    = Return (eng_tensor, rad_tensor, eng_vocab, rad_vocab) ∧
    StronglySorted str_lt eng_vocab ∧
    ∀ w, w ∈ eng_vocab ↔ w ∈ dict_keys sample_eng_to_rads.
Proof.
  destruct (dict_to_tensors_sorted_vocabularies sample_eng_to_rads)
    as (E & R & EV & RV & Henc & _ & _ & _ & _ & Hclean); [discriminate|].
  exists E, R, EV, RV. split; [done|]. apply Hclean.
  apply (bool_decide_unpack _). by vm_compute.
Defined.

(** ** [dict_to_tensors]: words and rows *)

Lemma lookup_toarray_row_singleton n k j :
  j < n →
  toarray_row n [k] !! j = Some (if decide (k = j) then 1%Z else 0%Z).
Proof.
  intros Hj. rewrite lookup_toarray_row by done.
  rewrite filter_cons, filter_nil. by destruct (decide (k = j)).
Qed.

Lemma binarized_row_inj (classes : list string) (w w' : string) :
  StronglySorted str_le classes → w ∈ classes → w' ∈ classes →
  binarized_row classes w = binarized_row classes w' → w = w'.
Proof.
  intros Hsorted Hw Hw'.
  pose proof (searchsorted_lookup_le _ _ Hsorted Hw) as Hp.
  pose proof (searchsorted_lookup_le _ _ Hsorted Hw') as Hp'.
  pose proof (lookup_lt_Some _ _ _ Hp) as Hlt.
  pose proof (lookup_lt_Some _ _ _ Hp') as Hlt'.
  assert (searchsorted classes w = searchsorted classes w' → w = w') as Hpos.
  { intros Heq. rewrite Heq in Hp. congruence. }
  unfold binarized_row.
  destruct (decide (length classes = 1)) as [Hone|Hone].
  { intros _. apply Hpos. lia. }
  destruct (decide (length classes < 3)) as [Hsmall|Hbig].
  - assert (length classes = 2) as -> by lia.
    destruct (searchsorted classes w) as [|[|p]],
      (searchsorted classes w') as [|[|p']]; try lia; auto; by vm_compute.
  - intros Hrows. apply Hpos.
    assert (toarray_row (length classes) [searchsorted classes w']
            !! searchsorted classes w = Some 1%Z) as Hent.
    { rewrite <-Hrows, lookup_toarray_row_singleton by done.
      by rewrite decide_True. }
    rewrite lookup_toarray_row_singleton in Hent by done.
    by destruct (decide (searchsorted classes w' = searchsorted classes w)).
Qed.

(** X7: two entries of a dictionary get the same input row exactly when
    their keys are equal once the NUL characters at their ends are
    dropped; two entries whose keys do not end in a NUL character never
    get the same row. *)
Theorem dict_to_tensors_distinct_rows (eng_to_rad : pydict (list string)) :
  wf_dict eng_to_rad → eng_to_rad ≠ [] →
  ∃ eng_tensor rad_tensor eng_vocab rad_vocab,
    dict_to_tensors eng_to_rad
    = Return (eng_tensor, rad_tensor, eng_vocab, rad_vocab) ∧
    ∀ i j w w',
      dict_keys eng_to_rad !! i = Some w →
      dict_keys eng_to_rad !! j = Some w' →
      (eng_tensor !! i = eng_tensor !! j ↔ strip_nul w = strip_nul w') ∧
      (strip_nul w = w → strip_nul w' = w' →
       eng_tensor !! i = eng_tensor !! j → i = j).
Proof.
  intros Hwf Hne. do 4 eexists.
  split; [by apply dict_to_tensors_closed|].
  intros i j w w' Hi Hj.
  set (classes := np_asarray (sorted_unique (dict_keys eng_to_rad))).
  assert ((binarized_row classes <$> np_asarray (dict_keys eng_to_rad)) !! i
          = (binarized_row classes <$> np_asarray (dict_keys eng_to_rad)) !! j
          ↔ strip_nul w = strip_nul w') as Hiff.
  { unfold np_asarray at 1 2. rewrite !list_lookup_fmap, Hi, Hj. simpl.
    split; [|by intros ->]. intros [= Hrows]. revert Hrows.
    apply binarized_row_inj.
    - apply StronglySorted_np_asarray.
    - apply elem_of_np_asarray_sorted_unique. by eapply list_elem_of_lookup_2.
    - apply elem_of_np_asarray_sorted_unique. by eapply list_elem_of_lookup_2. }
  split; [done|]. intros Hw Hw' Hrows. apply Hiff in Hrows.
  rewrite Hw, Hw' in Hrows. subst w'.
  exact (NoDup_lookup _ _ _ _ Hwf Hi Hj).
Qed.

Lemma dict_to_tensors_distinct_rows_witness :
  ∃ eng_tensor rad_tensor eng_vocab rad_vocab,
    dict_to_tensors nul_keys
    = Return (eng_tensor, rad_tensor, eng_vocab, rad_vocab) ∧
    ∀ i j w w',
      dict_keys nul_keys !! i = Some w →
      dict_keys nul_keys !! j = Some w' →
      (eng_tensor !! i = eng_tensor !! j ↔ strip_nul w = strip_nul w') ∧
      (strip_nul w = w → strip_nul w' = w' →
       eng_tensor !! i = eng_tensor !! j → i = j).
Proof.
  apply dict_to_tensors_distinct_rows; [|discriminate].
  apply (bool_decide_unpack _). by vm_compute.
Defined.

(** X8: the order of the entries of the dictionary decides the order of
    the rows and nothing else: after a reordering the two vocabularies
    are the same and every entry keeps its input row and its target
    row. *)
Theorem dict_to_tensors_reordered (eng_to_rad eng_to_rad' : pydict (list string)) :
  eng_to_rad ≡ₚ eng_to_rad' → eng_to_rad ≠ [] →
  ∃ eng_tensor rad_tensor eng_tensor' rad_tensor' eng_vocab rad_vocab,
    dict_to_tensors eng_to_rad
    = Return (eng_tensor, rad_tensor, eng_vocab, rad_vocab) ∧
    dict_to_tensors eng_to_rad'
    = Return (eng_tensor', rad_tensor', eng_vocab, rad_vocab) ∧
    ∀ i j entry,
      eng_to_rad !! i = Some entry → eng_to_rad' !! j = Some entry →
      eng_tensor !! i = eng_tensor' !! j ∧ rad_tensor !! i = rad_tensor' !! j.
Proof.
  intros Hperm Hne.
  assert (eng_to_rad' ≠ []) as Hne'.
  { intros ->. by apply Permutation_nil_r in Hperm. }
  assert (sorted_unique (dict_keys eng_to_rad')
          = sorted_unique (dict_keys eng_to_rad)) as Hkeys.
  { apply sorted_unique_ext. intros x. unfold dict_keys. by rewrite Hperm. }
  assert (sorted_unique (mjoin (dict_values eng_to_rad'))
          = sorted_unique (mjoin (dict_values eng_to_rad))) as Hrads.
  { apply sorted_unique_ext. intros x. unfold dict_values. by rewrite Hperm. }
  do 6 eexists. split_and!.
  - by apply dict_to_tensors_closed.
  - rewrite dict_to_tensors_closed by done. by rewrite Hkeys, Hrads.
  - intros i j entry Hi Hj. unfold np_asarray, dict_keys, dict_values.
    rewrite !list_lookup_fmap, Hi, Hj. done.
Qed.

Lemma dict_to_tensors_reordered_witness :
  ∃ eng_tensor rad_tensor eng_tensor' rad_tensor' eng_vocab rad_vocab,
    dict_to_tensors two_words
    = Return (eng_tensor, rad_tensor, eng_vocab, rad_vocab) ∧
    dict_to_tensors [("b", []); ("a", ["x"])]
    = Return (eng_tensor', rad_tensor', eng_vocab, rad_vocab) ∧
    ∀ i j entry,
      two_words !! i = Some entry →
      [("b", []); ("a", ["x"])] !! j = Some entry →
      eng_tensor !! i = eng_tensor' !! j ∧ rad_tensor !! i = rad_tensor' !! j.
Proof.
  apply dict_to_tensors_reordered; [|discriminate].
  apply perm_swap.
Defined.

(** ** From the two lookup tables to the tensors *)

Lemma multi_hot_row_nil classes :
  multi_hot_row classes [] = replicate (length classes) 0%Z.
Proof.
  unfold multi_hot_row. induction classes as [|c classes IH]; [done|].
  by rewrite fmap_cons, IH.
Qed.

(** X9: [dict_to_tensors] accepts what [create_eng_to_rads] returns for
    a non-empty [eng_to_kanji]: both tensors have one row per word, the
    English vocabulary holds the words, each read without the NUL
    characters at its end, the radical vocabulary holds the radicals of
    the kanji in use that have an entry, and a word none of whose kanji
    has an entry gets the all-zero target row. *)
Theorem encode_created_mapping
    (kanji_to_rads : gmap string (list string))
    (eng_to_kanji : pydict (list string)) :
  wf_dict eng_to_kanji → eng_to_kanji ≠ [] →
  ∃ eng_to_rads eng_tensor rad_tensor eng_vocab rad_vocab,
    create_eng_to_rads kanji_to_rads eng_to_kanji = Return eng_to_rads ∧
    dict_to_tensors eng_to_rads
    = Return (eng_tensor, rad_tensor, eng_vocab, rad_vocab) ∧
    length eng_tensor = length eng_to_kanji ∧
    length rad_tensor = length eng_to_kanji ∧
    (∀ w', w' ∈ eng_vocab
           ↔ ∃ w, w ∈ dict_keys eng_to_kanji ∧ w' = strip_nul w) ∧
    (∀ r, r ∈ rad_vocab
          ↔ ∃ w kanjis kanji rs,
              (w, kanjis) ∈ eng_to_kanji ∧ kanji ∈ kanjis ∧
              kanji_to_rads !! kanji = Some rs ∧ r ∈ rs) ∧
    ∀ i w kanjis, eng_to_kanji !! i = Some (w, kanjis) →
      Forall (λ kanji, kanji_to_rads !! kanji = None) kanjis →
      rad_tensor !! i = Some (replicate (length rad_vocab) 0%Z).
Proof.
  intros Hwf Hne. do 5 eexists.
  split; [by apply create_eng_to_rads_derive|].
  split; [apply dict_to_tensors_closed; by destruct eng_to_kanji|].
  pose proof (dict_keys_derive kanji_to_rads eng_to_kanji) as Hkeys.
  split_and!.
  - unfold np_asarray, dict_keys. by rewrite !length_fmap.
  - unfold dict_values. by rewrite !length_fmap.
  - intros w'. rewrite Hkeys. unfold np_asarray.
    rewrite list_elem_of_fmap. split.
    + intros (w & -> & Hw). rewrite elem_of_sorted_unique in Hw.
      by exists w.
    + intros (w & Hw & ->). exists w. by rewrite elem_of_sorted_unique.
  - intros r. rewrite elem_of_sorted_unique, list_elem_of_join.
    unfold dict_values. split.
    + intros (rads & Hr & (entry & -> & ([w kanjis] & -> & Hin)%list_elem_of_fmap)
                           %list_elem_of_fmap).
      simpl in Hr. apply elem_of_word_radicals in Hr
        as (kanji & rs & ? & ? & ?).
      by exists w, kanjis, kanji, rs.
    + intros (w & kanjis & kanji & rs & Hin & Hk & Hrs & Hr).
      exists (word_radicals kanji_to_rads kanjis). split.
      * apply elem_of_word_radicals. eauto.
      * apply list_elem_of_fmap. exists (derive kanji_to_rads (w, kanjis)).
        split; [done|]. apply list_elem_of_fmap. by exists (w, kanjis).
  - intros i w kanjis Hi Habsent. unfold dict_values.
    rewrite !list_lookup_fmap, Hi. simpl. unfold word_radicals.
    rewrite foldl_add_radicals_of_absent by done.
    by rewrite multi_hot_row_nil.
Qed.

Lemma encode_created_mapping_witness :
  ∃ eng_to_rads eng_tensor rad_tensor eng_vocab rad_vocab,
    create_eng_to_rads sample_kanji_to_rads [("unknown", ["?"])]
    = Return eng_to_rads ∧
    dict_to_tensors eng_to_rads
    = Return (eng_tensor, rad_tensor, eng_vocab, rad_vocab) ∧
    length eng_tensor = 1 ∧ length rad_tensor = 1 ∧
    rad_tensor !! 0 = Some (replicate (length rad_vocab) 0%Z).
Proof.
  destruct (encode_created_mapping sample_kanji_to_rads [("unknown", ["?"])])
    as (d & E & R & EV & RV & Hd & Henc & HlenE & HlenR & _ & _ & Hzero).
  { unfold wf_dict. simpl. apply NoDup_singleton. }
  { discriminate. }
  exists d, E, R, EV, RV. split_and!; [done..|].
  apply (Hzero 0 "unknown" ["?"]); [done|]. repeat constructor.
Defined.

(** ** [get_tensor_from_word]: the position of a word *)

Lemma word_to_idx_snoc eng_vocab x :
  word_to_idx (eng_vocab ++ [x])
  = <[x := length eng_vocab]> (word_to_idx eng_vocab).
Proof.
  unfold word_to_idx. rewrite imap_app, foldl_app. simpl.
  by rewrite Nat.add_0_r.
Qed.

(** The position that the dictionary comprehension keeps for a word is
    that of its last occurrence in the vocabulary. *)
Lemma word_to_idx_lookup eng_vocab word idx :
  word_to_idx eng_vocab !! word = Some idx
  ↔ eng_vocab !! idx = Some word ∧
    ∀ j, idx < j → eng_vocab !! j ≠ Some word.
Proof.
  revert idx. induction eng_vocab as [|x eng_vocab IH] using rev_ind;
    intros idx.
  { unfold word_to_idx. simpl. rewrite lookup_empty. split; [done|].
    by intros [? _]. }
  rewrite word_to_idx_snoc. destruct (decide (x = word)) as [->|Hne].
  - rewrite lookup_insert_eq. split.
    + intros [= <-]. split.
      * by rewrite lookup_app_r, Nat.sub_diag.
      * intros j Hj. rewrite lookup_ge_None_2; [done|].
        rewrite length_app. simpl. lia.
    + intros [Hidx Hlast]. f_equal.
      destruct (decide (idx < length eng_vocab)) as [Hlt|Hge].
      * destruct (Hlast (length eng_vocab) Hlt).
        by rewrite lookup_app_r, Nat.sub_diag.
      * apply lookup_lt_Some in Hidx. rewrite length_app in Hidx.
        simpl in Hidx. lia.
  - rewrite lookup_insert_ne by done. rewrite IH.
    assert (∀ j, (eng_vocab ++ [x]) !! j = Some word
                 ↔ eng_vocab !! j = Some word) as Happ.
    { intros j. destruct (decide (j < length eng_vocab)) as [Hlt|Hge].
      - by rewrite lookup_app_l.
      - rewrite lookup_app_r by lia. rewrite (lookup_ge_None_2 eng_vocab) by lia.
        destruct (j - length eng_vocab) as [|n]; simpl; [|done].
        split; [|done]. by intros [= ?]. }
    rewrite Happ. by setoid_rewrite Happ.
Qed.

Lemma word_to_idx_lookup_NoDup eng_vocab word idx :
  NoDup eng_vocab →
  word_to_idx eng_vocab !! word = Some idx ↔ eng_vocab !! idx = Some word.
Proof.
  intros Hnd. rewrite word_to_idx_lookup. split; [by intros [? _]|].
  intros Hidx. split; [done|]. intros j Hj Hjw.
  pose proof (NoDup_lookup _ _ _ _ Hnd Hidx Hjw). lia.
Qed.

Lemma get_tensor_from_word_scan {A : Type} (is_one : A → bool)
    (word : string) (eng_tens : list (list A)) (eng_vocab : list string) idx :
  word_to_idx eng_vocab !! word = Some idx →
  get_tensor_from_word is_one word eng_tens eng_vocab
  = scan_tensors is_one idx eng_tens.
Proof.
  intros Hidx. unfold get_tensor_from_word, map_getitem.
  rewrite Hidx. by rewrite decide_True by eauto.
Qed.

Lemma get_tensor_from_word_cases {A : Type} (is_one : A → bool)
    (word : string) (eng_tens : list (list A)) (eng_vocab : list string) :
  (word_to_idx eng_vocab !! word = None ∧
   get_tensor_from_word is_one word eng_tens eng_vocab
   = Raise (RuntimeError "Word is not in vocabulary!")) ∨
  (∃ idx, word_to_idx eng_vocab !! word = Some idx ∧
     get_tensor_from_word is_one word eng_tens eng_vocab
     = scan_tensors is_one idx eng_tens).
Proof.
  destruct (word_to_idx eng_vocab !! word) as [idx|] eqn:Hidx.
  - right. exists idx. split; [done|]. by apply get_tensor_from_word_scan.
  - left. split; [done|]. unfold get_tensor_from_word. rewrite Hidx.
    by rewrite decide_False by (by intros [? ?]).
Qed.

(** ** [get_tensor_from_word]: the three ways the scan ends *)

Lemma scan_tensors_Return {A : Type} (is_one : A → bool) idx
    (eng_tens : list (list A)) tens :
  scan_tensors is_one idx eng_tens = Return tens
  ↔ ∃ pre post x,
      eng_tens = pre ++ tens :: post ∧
      Forall (λ row, ∃ y, row !! idx = Some y ∧ is_one y = false) pre ∧
      tens !! idx = Some x ∧ is_one x = true.
Proof.
  split.
  - induction eng_tens as [|row eng_tens IH]; simpl; [done|].
    destruct (row !! idx) as [y|] eqn:Hy; [|done].
    destruct (is_one y) eqn:Hone.
    + intros [= ->]. exists [], eng_tens, y. by repeat split.
    + intros (pre & post & x & -> & Hpre & Hx & Hx1)%IH.
      exists (row :: pre), post, x. repeat split; [|done..].
      constructor; [|done]. eauto.
  - intros (pre & post & x & -> & Hpre & Hx & Hx1).
    induction Hpre as [|row pre (y & Hy & Hy1) _ IH]; simpl.
    + by rewrite Hx, Hx1.
    + by rewrite Hy, Hy1.
Qed.

Lemma scan_tensors_not_found {A : Type} (is_one : A → bool) idx
    (eng_tens : list (list A)) :
  scan_tensors is_one idx eng_tens
  = Raise (RuntimeError "Corresponding tensor for word was not found!")
  ↔ Forall (λ row, ∃ y, row !! idx = Some y ∧ is_one y = false) eng_tens.
Proof.
  induction eng_tens as [|row eng_tens IH]; simpl.
  - split; [by constructor|done].
  - rewrite Forall_cons. destruct (row !! idx) as [y|] eqn:Hy.
    + destruct (is_one y) eqn:Hone.
      * split; [done|]. intros [(y' & [= <-] & ?) _]. congruence.
      * rewrite IH. split; [|by intros [_ ?]]. intros Hall. split; [|done].
        by exists y.
    + split; [done|]. by intros [(y' & ? & _) _].
Qed.

Lemma scan_tensors_IndexError {A : Type} (is_one : A → bool) idx
    (eng_tens : list (list A)) :
  scan_tensors is_one idx eng_tens = Raise IndexError
  ↔ ∃ pre short post,
      eng_tens = pre ++ short :: post ∧
      Forall (λ row, ∃ y, row !! idx = Some y ∧ is_one y = false) pre ∧
      (length short ≤ idx)%nat.
Proof.
  split.
  - induction eng_tens as [|row eng_tens IH]; simpl; [done|].
    destruct (row !! idx) as [y|] eqn:Hy.
    + destruct (is_one y) eqn:Hone; [done|].
      intros (pre & short & post & -> & Hpre & Hshort)%IH.
      exists (row :: pre), short, post. repeat split; [|done].
      constructor; [|done]. eauto.
    + intros _. exists [], row, eng_tens. repeat split; [by constructor|].
      by apply lookup_ge_None.
  - intros (pre & short & post & -> & Hpre & Hshort).
    induction Hpre as [|row pre (y & Hy & Hy1) _ IH]; simpl.
    + by rewrite lookup_ge_None_2.
    + by rewrite Hy, Hy1.
Qed.

(** X10: [get_tensor_from_word] returns a row exactly when the word is in
    the vocabulary and, at the position of its last occurrence there,
    some row holds 1.0 while every row before it has an entry that is
    not 1.0; what it returns is the first such row. *)
Theorem get_tensor_from_word_returns {A : Type} (is_one : A → bool)
    (word : string) (eng_tens : list (list A)) (eng_vocab : list string)
    (tens : list A) :
  get_tensor_from_word is_one word eng_tens eng_vocab = Return tens
  ↔ ∃ idx pre post x,
      eng_vocab !! idx = Some word ∧
      (∀ j, idx < j → eng_vocab !! j ≠ Some word) ∧
      eng_tens = pre ++ tens :: post ∧
      Forall (λ row, ∃ y, row !! idx = Some y ∧ is_one y = false) pre ∧
      tens !! idx = Some x ∧ is_one x = true.
Proof.
  destruct (get_tensor_from_word_cases is_one word eng_tens eng_vocab)
    as [[Hnone ->]|(idx & Hidx & ->)].
  - split; [done|]. intros (idx & _ & _ & _ & Hidx & Hlast & _).
    assert (word_to_idx eng_vocab !! word = Some idx) as Hsome
      by by apply word_to_idx_lookup.
    congruence.
  - rewrite scan_tensors_Return. split.
    + intros (pre & post & x & ? & ? & ? & ?).
      apply word_to_idx_lookup in Hidx as [? ?].
      by exists idx, pre, post, x.
    + intros (idx' & pre & post & x & Hidx' & Hlast & ? & ? & ? & ?).
      assert (word_to_idx eng_vocab !! word = Some idx') as Hsome
        by by apply word_to_idx_lookup.
      assert (idx' = idx) as -> by congruence.
      by exists pre, post, x.
Qed.

(** X11: [get_tensor_from_word] raises "Corresponding tensor for word was
    not found!" exactly when the word is in the vocabulary and every row,
    if any, has at the position of the word an entry that is not 1.0. *)
Theorem get_tensor_from_word_no_row {A : Type} (is_one : A → bool)
    (word : string) (eng_tens : list (list A)) (eng_vocab : list string) :
  get_tensor_from_word is_one word eng_tens eng_vocab
  = Raise (RuntimeError "Corresponding tensor for word was not found!")
  ↔ ∃ idx,
      eng_vocab !! idx = Some word ∧
      (∀ j, idx < j → eng_vocab !! j ≠ Some word) ∧
      Forall (λ row, ∃ y, row !! idx = Some y ∧ is_one y = false) eng_tens.
Proof.
  destruct (get_tensor_from_word_cases is_one word eng_tens eng_vocab)
    as [[Hnone ->]|(idx & Hidx & ->)].
  - split; [done|]. intros (idx & Hidx & Hlast & _).
    assert (word_to_idx eng_vocab !! word = Some idx) as Hsome
      by by apply word_to_idx_lookup.
    congruence.
  - rewrite scan_tensors_not_found. split.
    + intros Hall. apply word_to_idx_lookup in Hidx as [? ?].
      by exists idx.
    + intros (idx' & Hidx' & Hlast & Hall).
      assert (word_to_idx eng_vocab !! word = Some idx') as Hsome
        by by apply word_to_idx_lookup.
      by assert (idx' = idx) as <- by congruence.
Qed.

(** X12: [get_tensor_from_word] raises [IndexError] exactly when the word
    is in the vocabulary and the scan meets, before any row with 1.0 at
    the position of the word, a row too short to have that position. *)
Theorem get_tensor_from_word_short_row {A : Type} (is_one : A → bool)
    (word : string) (eng_tens : list (list A)) (eng_vocab : list string) :
  get_tensor_from_word is_one word eng_tens eng_vocab = Raise IndexError
  ↔ ∃ idx pre short post,
      eng_vocab !! idx = Some word ∧
      (∀ j, idx < j → eng_vocab !! j ≠ Some word) ∧
      eng_tens = pre ++ short :: post ∧
      Forall (λ row, ∃ y, row !! idx = Some y ∧ is_one y = false) pre ∧
      (length short ≤ idx)%nat.
Proof.
  destruct (get_tensor_from_word_cases is_one word eng_tens eng_vocab)
    as [[Hnone ->]|(idx & Hidx & ->)].
  - split; [done|]. intros (idx & _ & _ & _ & Hidx & Hlast & _).
    assert (word_to_idx eng_vocab !! word = Some idx) as Hsome
      by by apply word_to_idx_lookup.
    congruence.
  - rewrite scan_tensors_IndexError. split.
    + intros (pre & short & post & ? & ? & ?).
      apply word_to_idx_lookup in Hidx as [? ?].
      by exists idx, pre, short, post.
    + intros (idx' & pre & short & post & Hidx' & Hlast & ? & ? & ?).
      assert (word_to_idx eng_vocab !! word = Some idx') as Hsome
        by by apply word_to_idx_lookup.
      assert (idx' = idx) as -> by congruence.
      by exists pre, short, post.
Qed.

(** ** [get_tensor_from_word] on the tensors of [dict_to_tensors] *)

(** X13: with three words or more, looking a word up in the input
    tensor and the vocabulary that [dict_to_tensors] returned gives back
    the row of that word, provided the word does not end in a NUL
    character and is the only key that reads as it does once the NUL
    characters at the end are dropped. *)
Theorem get_tensor_from_word_round_trip (eng_to_rad : pydict (list string)) :
  wf_dict eng_to_rad → (3 ≤ length eng_to_rad)%nat →
  ∃ eng_tensor rad_tensor eng_vocab rad_vocab,
    dict_to_tensors eng_to_rad
    = Return (eng_tensor, rad_tensor, eng_vocab, rad_vocab) ∧
    ∀ i w, dict_keys eng_to_rad !! i = Some w →
      strip_nul w = w →
      (∀ w', w' ∈ dict_keys eng_to_rad → strip_nul w' = w → w' = w) →
      ∃ v, eng_tensor !! i = Some v ∧
        get_tensor_from_word (Z.eqb 1) w eng_tensor eng_vocab = Return v.
Proof.
  intros Hwf Hlen. do 4 eexists. split.
  { apply dict_to_tensors_closed. intros ->. simpl in Hlen. lia. }
  set (keys := dict_keys eng_to_rad).
  set (classes := np_asarray (sorted_unique keys)).
  assert (StronglySorted str_le classes) as Hsorted
    by apply StronglySorted_np_asarray.
  assert (length classes = length eng_to_rad) as Hn.
  { unfold classes. rewrite length_np_asarray_sorted_unique by done.
    unfold keys, dict_keys. by rewrite length_fmap. }
  assert (∀ w', w' ∈ keys →
            binarized_row classes (strip_nul w')
            = toarray_row (length classes)
                [searchsorted classes (strip_nul w')] ∧
            classes !! searchsorted classes (strip_nul w')
            = Some (strip_nul w')) as Hrow.
  { intros w' Hw'. split.
    - apply binarized_row_multiclass. lia.
    - apply searchsorted_lookup_le; [done|].
      by apply elem_of_np_asarray_sorted_unique. }
  intros i w Hi Hclean Honly. exists (binarized_row classes w).
  assert (w ∈ keys) as Hw by by eapply list_elem_of_lookup_2.
  destruct (Hrow w Hw) as [Hroww Hidx]. rewrite Hclean in Hroww, Hidx.
  pose proof (lookup_lt_Some _ _ _ Hidx) as Hlt.
  assert ((binarized_row classes <$> np_asarray keys) !! i
          = Some (binarized_row classes w)) as Hv.
  { unfold np_asarray. rewrite !list_lookup_fmap, Hi. simpl.
    by rewrite Hclean. }
  split; [done|].
  rewrite (get_tensor_from_word_scan _ _ _ _ (searchsorted classes w)).
  2:{ apply word_to_idx_lookup. split; [done|]. intros j Hj Hjw.
      assert (∀ k, classes !! k = Some w → sorted_unique keys !! k = Some w)
        as Hback.
      { intros k Hk. unfold classes, np_asarray in Hk.
        rewrite list_lookup_fmap in Hk.
        destruct (sorted_unique keys !! k) as [w'|] eqn:Hw'; [|done].
        injection Hk as Hk. f_equal. apply Honly; [|done].
        apply (elem_of_sorted_unique keys). by eapply list_elem_of_lookup_2. }
      pose proof (NoDup_lookup _ _ _ _ (NoDup_sorted_unique keys)
                    (Hback _ Hidx) (Hback _ Hjw)). lia. }
  apply scan_tensors_Return.
  exists (take i (binarized_row classes <$> np_asarray keys)),
    (drop (S i) (binarized_row classes <$> np_asarray keys)), 1%Z.
  split_and!.
  - symmetry. by apply take_drop_middle.
  - apply Forall_lookup. intros j row [Hj Hji]%lookup_take_Some.
    unfold np_asarray in Hj. rewrite !list_lookup_fmap in Hj.
    destruct (keys !! j) as [w'|] eqn:Hw'; [|done]. injection Hj as <-.
    destruct (Hrow w') as [-> Hidx']; [by eapply list_elem_of_lookup_2|].
    exists 0%Z. split; [|done].
    rewrite lookup_toarray_row_singleton by done.
    rewrite decide_False; [done|]. intros Heq. rewrite Heq in Hidx'.
    assert (strip_nul w' = w) as Hstrip by congruence.
    assert (w' = w) as ->
      by (apply Honly; [by eapply list_elem_of_lookup_2|done]).
    pose proof (NoDup_lookup _ _ _ _ Hwf Hw' Hi). lia.
  - rewrite Hroww, lookup_toarray_row_singleton by done.
    by rewrite decide_True.
  - done.
Qed.

Lemma get_tensor_from_word_round_trip_witness :
  ∃ v, [[1%Z; 0%Z; 0%Z]; [1%Z; 0%Z; 0%Z]; [0%Z; 0%Z; 1%Z]] !! 2 = Some v ∧
    get_tensor_from_word (Z.eqb 1) "b"
      [[1%Z; 0%Z; 0%Z]; [1%Z; 0%Z; 0%Z]; [0%Z; 0%Z; 1%Z]] ["a"; "a"; "b"]
    = Return v.
Proof.
  destruct (get_tensor_from_word_round_trip nul_keys)
    as (E & R & EV & RV & Henc & Hlookup).
  { apply (bool_decide_unpack _). by vm_compute. }
  { simpl. lia. }
  assert (dict_to_tensors nul_keys
          = Return ([[1%Z; 0%Z; 0%Z]; [1%Z; 0%Z; 0%Z]; [0%Z; 0%Z; 1%Z]],
                    [[1%Z; 0%Z]; [0%Z; 1%Z]; [0%Z; 0%Z]],
                    ["a"; "a"; "b"], ["x"; "y"])) as Heval by by vm_compute.
  rewrite Heval in Henc. injection Henc as <- <- <- <-.
  apply (Hlookup 2 "b"); [done|by vm_compute|].
  intros w' Hw' Hstrip. simpl in Hw'.
  apply elem_of_cons in Hw' as [->|Hw']; [by vm_compute in Hstrip|].
  apply elem_of_cons in Hw' as [->|Hw']; [by vm_compute in Hstrip|].
  by apply list_elem_of_singleton in Hw'.
Defined.

(** X14: with two words that do not end in a NUL character the lookup
    never gives a word its own row: for the word that sorts first it
    returns the row of the other word, and for the word that sorts last
    it raises [IndexError]; this holds for both orders of the two
    entries. *)
Theorem get_tensor_from_word_two_words
    (k1 k2 : string) (rads1 rads2 : list string) :
  str_lt k1 k2 → strip_nul k1 = k1 → strip_nul k2 = k2 →
  ∀ eng_to_rad,
    eng_to_rad = [(k1, rads1); (k2, rads2)] ∨
    eng_to_rad = [(k2, rads2); (k1, rads1)] →
    ∃ eng_tensor rad_tensor eng_vocab rad_vocab,
      dict_to_tensors eng_to_rad
      = Return (eng_tensor, rad_tensor, eng_vocab, rad_vocab) ∧
      binarized_row eng_vocab k1 = [0%Z] ∧
      binarized_row eng_vocab k2 = [1%Z] ∧
      get_tensor_from_word (Z.eqb 1) k1 eng_tensor eng_vocab
      = Return [1%Z] ∧
      get_tensor_from_word (Z.eqb 1) k2 eng_tensor eng_vocab
      = Raise IndexError.
Proof.
  intros Hlt Hclean1 Hclean2 d Hd.
  destruct (sorted_unique_pair _ _ Hlt) as [Hs12 Hs21].
  destruct (binarized_row_pair _ _ Hlt) as [Hrow1 Hrow2].
  assert (NoDup [k1; k2]) as Hnd.
  { apply NoDup_cons. split; [|apply NoDup_singleton].
    intros ->%list_elem_of_singleton. by apply (str_lt_irrefl k2). }
  assert (word_to_idx [k1; k2] !! k1 = Some 0) as Hidx1
    by by apply word_to_idx_lookup_NoDup.
  assert (word_to_idx [k1; k2] !! k2 = Some 1) as Hidx2
    by by apply word_to_idx_lookup_NoDup.
  do 4 eexists. split.
  { apply dict_to_tensors_closed. by destruct Hd as [-> | ->]. }
  destruct Hd as [-> | ->].
  - change (dict_keys [(k1, rads1); (k2, rads2)]) with [k1; k2].
    rewrite Hs12. unfold np_asarray. simpl.
    rewrite Hclean1, Hclean2, Hrow1, Hrow2.
    split_and!; [done|done| |];
      by erewrite get_tensor_from_word_scan by done.
  - change (dict_keys [(k2, rads2); (k1, rads1)]) with [k2; k1].
    rewrite Hs21. unfold np_asarray. simpl.
    rewrite Hclean1, Hclean2, Hrow1, Hrow2.
    split_and!; [done|done| |];
      by erewrite get_tensor_from_word_scan by done.
Qed.

Lemma get_tensor_from_word_two_words_witness :
  ∃ eng_tensor rad_tensor eng_vocab rad_vocab,
    dict_to_tensors [("b", []); ("a", ["x"])]
    = Return (eng_tensor, rad_tensor, eng_vocab, rad_vocab) ∧
    binarized_row eng_vocab "a" = [0%Z] ∧
    binarized_row eng_vocab "b" = [1%Z] ∧
    get_tensor_from_word (Z.eqb 1) "a" eng_tensor eng_vocab = Return [1%Z] ∧
    get_tensor_from_word (Z.eqb 1) "b" eng_tensor eng_vocab
    = Raise IndexError.
Proof.
  apply (get_tensor_from_word_two_words "a" "b" ["x"] []);
    [by vm_compute|by vm_compute|by vm_compute|by right].
Defined.

(** ** [train_model] *)

Section training.
Context {W X Y O L : Type} (objs : torch_objects W X Y O L).
Context (scheduler : option (W → W)).
Implicit Types (st : train_state W L) (examples : list (X * Y)).

Lemma foldl_train_example examples st :
  calls (foldl (train_example objs) st examples)
  = calls st
    ++ mjoin (replicate (length examples)
                [ZeroGrad; Forward; Criterion; Backward; OptimizerStep]) ∧
  printed (foldl (train_example objs) st examples) = printed st ∧
  (examples ≠ [] → loss (foldl (train_example objs) st examples) ≠ IntZero).
Proof.
  revert st. induction examples as [|example examples IH]; intros st.
  - simpl. by rewrite app_nil_r.
  - simpl foldl. destruct (IH (train_example objs st example))
      as (Hcalls & Hprinted & Hloss).
    split_and!.
    + rewrite Hcalls. simpl. by rewrite <-app_assoc.
    + by rewrite Hprinted.
    + intros _. destruct examples as [|example' examples]; [done|].
      by apply Hloss.
Qed.

Lemma train_epoch_Trained verbose (eng_tensors : list X)
    (rad_tensors : list Y) st epoch :
  eng_tensors ≠ [] → rad_tensors ≠ [] →
  ∃ st',
    train_epoch objs scheduler verbose eng_tensors rad_tensors st epoch
    = Trained st' ∧
    calls st'
    = calls st
      ++ epoch_calls (length eng_tensors `min` length rad_tensors)
           (bool_decide (is_Some scheduler)) ∧
    (printed st').*1
    = (printed st).*1
      ++ (if verbose then
            if decide (logged_epoch epoch) then [epoch + 1] else []
          else []).
Proof.
  intros Heng Hrad. unfold train_epoch.
  destruct (foldl_train_example (zip eng_tensors rad_tensors) st)
    as (Hcalls & Hprinted & Hloss).
  rewrite length_zip_with in Hcalls.
  set (st1 := foldl (train_example objs) st (zip eng_tensors rad_tensors)) in *.
  assert (loss (scheduler_step scheduler st1) ≠ IntZero) as Hloss2.
  { assert (loss st1 ≠ IntZero) as Hl.
    { apply Hloss. by destruct eng_tensors, rad_tensors. }
    by destruct scheduler. }
  assert (calls (scheduler_step scheduler st1)
          = calls st
            ++ epoch_calls (length eng_tensors `min` length rad_tensors)
                 (bool_decide (is_Some scheduler))) as Hcalls2.
  { unfold epoch_calls. destruct scheduler as [step|]; simpl.
    - rewrite Hcalls. by rewrite <-app_assoc.
    - rewrite Hcalls. by rewrite app_nil_r. }
  assert (printed (scheduler_step scheduler st1) = printed st) as Hprinted2.
  { by destruct scheduler. }
  destruct (decide (logged_epoch epoch)) as [Hlog|Hlog].
  - assert ((epoch mod 1000 =? 0)%nat || (epoch <? 100)%nat = true) as ->.
    { apply orb_true_iff. destruct Hlog as [?|?].
      - left. by apply Nat.eqb_eq.
      - right. by apply Nat.ltb_lt. }
    destruct (loss (scheduler_step scheduler st1)) as [|l] eqn:Hl; [done|].
    eexists. split; [done|]. unfold print_verbose.
    destruct verbose; simpl.
    + split; [done|]. by rewrite fmap_app, Hprinted2.
    + split; [done|]. by rewrite app_nil_r, Hprinted2.
  - assert ((epoch mod 1000 =? 0)%nat || (epoch <? 100)%nat = false) as ->.
    { apply orb_false_iff. split.
      - apply Nat.eqb_neq. intros ?. apply Hlog. by left.
      - apply Nat.ltb_ge. apply Nat.nlt_ge. intros ?. apply Hlog. by right. }
    eexists. split; [done|]. split; [done|].
    rewrite Hprinted2. by destruct verbose; rewrite app_nil_r.
Qed.

Lemma train_epochs_Trained verbose (eng_tensors : list X)
    (rad_tensors : list Y) (first count : nat) st :
  eng_tensors ≠ [] → rad_tensors ≠ [] →
  ∃ st',
    train_epochs objs scheduler verbose eng_tensors rad_tensors st
      (seq first count)
    = Trained st' ∧
    calls st'
    = calls st
      ++ mjoin (replicate count
                  (epoch_calls (length eng_tensors `min` length rad_tensors)
                     (bool_decide (is_Some scheduler)))) ∧
    (printed st').*1
    = (printed st).*1
      ++ (if verbose then
            (λ epoch, epoch + 1) <$> filter logged_epoch (seq first count)
          else []).
Proof.
  intros Heng Hrad. revert first st.
  induction count as [|count IH]; intros first st.
  - simpl. exists st. rewrite !app_nil_r.
    split_and!; [done..|]. by destruct verbose; rewrite ?app_nil_r.
  - simpl seq. simpl train_epochs.
    destruct (train_epoch_Trained verbose eng_tensors rad_tensors st first)
      as (st1 & -> & Hcalls1 & Hprinted1); [done..|].
    destruct (IH (S first) st1) as (st' & -> & Hcalls & Hprinted).
    exists st'. split_and!; [done| |].
    + rewrite Hcalls, Hcalls1. simpl. by rewrite <-app_assoc.
    + rewrite Hprinted, Hprinted1, <-app_assoc. f_equal.
      destruct verbose; [|done]. rewrite filter_cons.
      by destruct (decide (logged_epoch first)).
Qed.

Lemma train_epoch_verbose verbose verbose' (eng_tensors : list X)
    (rad_tensors : list Y) st st' epoch :
  world st = world st' → loss st = loss st' → calls st = calls st' →
  match train_epoch objs scheduler verbose eng_tensors rad_tensors st epoch,
        train_epoch objs scheduler verbose' eng_tensors rad_tensors st' epoch
  with
  | Trained a, Trained b =>
      world a = world b ∧ loss a = loss b ∧ calls a = calls b
  | AttributeError msg, AttributeError msg' => msg = msg'
  | _, _ => False
  end.
Proof.
  intros Hworld Hloss Hcalls. unfold train_epoch.
  assert (∀ a b, world a = world b → loss a = loss b → calls a = calls b →
            let a' := foldl (train_example objs) a
                        (zip eng_tensors rad_tensors) in
            let b' := foldl (train_example objs) b
                        (zip eng_tensors rad_tensors) in
            world a' = world b' ∧ loss a' = loss b' ∧ calls a' = calls b')
    as Hfold.
  { induction (zip eng_tensors rad_tensors) as [|example examples IH];
      intros a b Hw Hl Hc; simpl; [done|].
    apply IH; simpl; congruence. }
  destruct (Hfold st st' Hworld Hloss Hcalls) as (Hw1 & Hl1 & Hc1).
  set (a := foldl (train_example objs) st (zip eng_tensors rad_tensors)) in *.
  set (b := foldl (train_example objs) st' (zip eng_tensors rad_tensors)) in *.
  assert (world (scheduler_step scheduler a)
          = world (scheduler_step scheduler b) ∧
          loss (scheduler_step scheduler a)
          = loss (scheduler_step scheduler b) ∧
          calls (scheduler_step scheduler a)
          = calls (scheduler_step scheduler b)) as (Hw2 & Hl2 & Hc2).
  { destruct scheduler; simpl; split_and!; congruence. }
  destruct ((epoch mod 1000 =? 0)%nat || (epoch <? 100)%nat); [|done].
  rewrite <-Hl2.
  destruct (loss (scheduler_step scheduler a)) as [|l] eqn:Hla; [done|].
  unfold print_verbose.
  destruct verbose, verbose'; simpl; split_and!; congruence.
Qed.

Lemma train_epochs_verbose verbose verbose' (eng_tensors : list X)
    (rad_tensors : list Y) epochs st st' :
  world st = world st' → loss st = loss st' → calls st = calls st' →
  match train_epochs objs scheduler verbose eng_tensors rad_tensors st epochs,
        train_epochs objs scheduler verbose' eng_tensors rad_tensors st' epochs
  with
  | Trained a, Trained b =>
      world a = world b ∧ loss a = loss b ∧ calls a = calls b
  | AttributeError msg, AttributeError msg' => msg = msg'
  | _, _ => False
  end.
Proof.
  revert st st'. induction epochs as [|epoch epochs IH];
    intros st st' Hworld Hloss Hcalls; simpl; [done|].
  pose proof (train_epoch_verbose verbose verbose' eng_tensors rad_tensors
                st st' epoch Hworld Hloss Hcalls) as Hepoch.
  destruct (train_epoch objs scheduler verbose eng_tensors rad_tensors st epoch),
    (train_epoch objs scheduler verbose' eng_tensors rad_tensors st' epoch);
    try done.
  destruct Hepoch as (? & ? & ?). by apply IH.
Qed.
End training.

Lemma train_epochs_zip {W X Y O L : Type} (objs : torch_objects W X Y O L)
    (scheduler : option (W → W)) (verbose : bool)
    (eng_tensors eng_tensors' : list X) (rad_tensors rad_tensors' : list Y)
    (st : train_state W L) (epochs : list nat) :
  zip eng_tensors rad_tensors = zip eng_tensors' rad_tensors' →
  train_epochs objs scheduler verbose eng_tensors rad_tensors st epochs
  = train_epochs objs scheduler verbose eng_tensors' rad_tensors' st epochs.
Proof.
  intros Hzip. revert st. induction epochs as [|epoch epochs IH]; intros st;
    simpl; [done|].
  unfold train_epoch. rewrite Hzip.
  destruct (_ || _); [destruct (loss _)|]; by rewrite ?IH.
Qed.

(** X15: without a single example (one of the two tensors has no row)
    [train_model] fails in its first epoch with the [AttributeError] of
    [loss.data], the variable [loss] still being the integer 0, and this
    whatever [verbose] is; with no epoch to run it does nothing. *)
Theorem train_model_no_examples {W X Y O L : Type}
    (objs : torch_objects W X Y O L) (w : W)
    (eng_tensors : list X) (rad_tensors : list Y) (epochs : Z)
    (scheduler : option (W → W)) (verbose : bool) :
  eng_tensors = [] ∨ rad_tensors = [] →
  train_model objs w eng_tensors rad_tensors epochs scheduler verbose
  = if decide (0 < epochs)%Z
    then AttributeError "'int' object has no attribute 'data'"
    else Trained {| world := w; loss := IntZero; calls := []; printed := [] |}.
Proof.
  intros Hempty.
  assert (zip eng_tensors rad_tensors = []) as Hzip.
  { destruct Hempty as [-> | ->]; [apply zip_nil_l|apply zip_nil_r]. }
  unfold train_model. destruct (decide (0 < epochs)%Z) as [Hpos|Hneg].
  - destruct (Z.to_nat epochs) as [|n] eqn:Hn; [lia|].
    simpl. unfold train_epoch. rewrite Hzip. simpl.
    by destruct scheduler.
  - by assert (Z.to_nat epochs = 0) as -> by lia.
Qed.

Lemma train_model_no_examples_witness :
  train_model counting_objects 0 [] [[1%Z]; [0%Z]] 100 None false
  = if decide (0 < 100)%Z
    then AttributeError "'int' object has no attribute 'data'"
    else Trained {| world := 0; loss := IntZero; calls := []; printed := [] |}.
Proof. apply train_model_no_examples. by left. Defined.

(** X16: with at least one row in each tensor [train_model] returns, and
    the calls it has made are, once per epoch: for as many examples as
    the shorter tensor has rows, zero_grad, the forward pass, the
    criterion, backward and the optimizer step, in that order, and then
    one scheduler step when a scheduler was given. *)
Theorem train_model_calls {W X Y O L : Type}
    (objs : torch_objects W X Y O L) (w : W)
    (eng_tensors : list X) (rad_tensors : list Y) (epochs : Z)
    (scheduler : option (W → W)) (verbose : bool) :
  eng_tensors ≠ [] → rad_tensors ≠ [] →
  ∃ st,
    train_model objs w eng_tensors rad_tensors epochs scheduler verbose
    = Trained st ∧
    calls st
    = mjoin (replicate (Z.to_nat epochs)
               (epoch_calls (length eng_tensors `min` length rad_tensors)
                  (bool_decide (is_Some scheduler)))).
Proof.
  intros Heng Hrad. unfold train_model.
  destruct (train_epochs_Trained objs scheduler verbose eng_tensors
              rad_tensors 0 (Z.to_nat epochs)
              {| world := w; loss := IntZero; calls := []; printed := [] |})
    as (st & -> & Hcalls & _); [done..|].
  by exists st.
Qed.

Lemma train_model_calls_witness :
  ∃ st,
    train_model counting_objects 0 [[1%Z]; [0%Z]] [[1%Z]; [0%Z]; [1%Z]] 3
      (Some (λ w, w)) false
    = Trained st ∧
    calls st
    = mjoin (replicate (Z.to_nat 3)
               (epoch_calls (length [[1%Z]; [0%Z]]
                               `min` length [[1%Z]; [0%Z]; [1%Z]])
                  (bool_decide (is_Some (Some (λ w : nat, w)))))).
Proof. by apply train_model_calls. Defined.

(** X17: when [train_model] returns, it has printed nothing if [verbose]
    is false, and otherwise one line per epoch among the first hundred
    and the multiples of 1000, in order, each showing the epoch number
    plus one. *)
Theorem train_model_printed {W X Y O L : Type}
    (objs : torch_objects W X Y O L) (w : W)
    (eng_tensors : list X) (rad_tensors : list Y) (epochs : Z)
    (scheduler : option (W → W)) (verbose : bool) :
  eng_tensors ≠ [] → rad_tensors ≠ [] →
  ∃ st,
    train_model objs w eng_tensors rad_tensors epochs scheduler verbose
    = Trained st ∧
    (printed st).*1
    = if verbose then
        (λ epoch, epoch + 1)
          <$> filter logged_epoch (seq 0 (Z.to_nat epochs))
      else [].
Proof.
  intros Heng Hrad. unfold train_model.
  destruct (train_epochs_Trained objs scheduler verbose eng_tensors
              rad_tensors 0 (Z.to_nat epochs)
              {| world := w; loss := IntZero; calls := []; printed := [] |})
    as (st & -> & _ & Hprinted); [done..|].
  by exists st.
Qed.

Lemma train_model_printed_witness :
  ∃ st,
    train_model counting_objects 0 [[1%Z]; [0%Z]] [[1%Z]; [0%Z]] 3 None true
    = Trained st ∧
    (printed st).*1
    = (λ epoch, epoch + 1) <$> filter logged_epoch (seq 0 (Z.to_nat 3)).
Proof.
  by apply (train_model_printed counting_objects 0 [[1%Z]; [0%Z]]
              [[1%Z]; [0%Z]] 3 None true).
Defined.

(** X18: [verbose] decides what is printed and nothing else: with either
    value the function ends the same way, and when it returns the torch
    objects are in the same state after the same calls. *)
Theorem train_model_verbose {W X Y O L : Type}
    (objs : torch_objects W X Y O L) (w : W)
    (eng_tensors : list X) (rad_tensors : list Y) (epochs : Z)
    (scheduler : option (W → W)) :
  match train_model objs w eng_tensors rad_tensors epochs scheduler true,
        train_model objs w eng_tensors rad_tensors epochs scheduler false
  with
  | Trained a, Trained b =>
      world a = world b ∧ loss a = loss b ∧ calls a = calls b ∧
      printed b = []
  | AttributeError msg, AttributeError msg' => msg = msg'
  | _, _ => False
  end.
Proof.
  unfold train_model.
  set (st0 := {| world := w; loss := IntZero; calls := [];
                 printed := @nil (nat * L) |}).
  pose proof (train_epochs_verbose objs scheduler true false eng_tensors
                rad_tensors (seq 0 (Z.to_nat epochs)) st0 st0
                eq_refl eq_refl eq_refl) as Hsame.
  assert (∀ es st b, printed st = [] →
            train_epochs objs scheduler false eng_tensors rad_tensors st es
            = Trained b → printed b = []) as Hquiet.
  { induction es as [|e es IH]; intros st b Hst; simpl.
    - by intros [= <-].
    - unfold train_epoch.
      destruct (foldl_train_example objs (zip eng_tensors rad_tensors) st)
        as (_ & Hp & _).
      set (st1 := foldl (train_example objs) st
                    (zip eng_tensors rad_tensors)) in *.
      assert (printed (scheduler_step scheduler st1) = [])
        as Hp2 by (destruct scheduler; simpl; congruence).
      destruct (_ || _); [destruct (loss _); [done|]|]; by apply IH. }
  destruct (train_epochs objs scheduler true _ _ _ _) as [a|msg],
    (train_epochs objs scheduler false _ _ _ _) as [b|msg'] eqn:Hb;
    try done.
  destruct Hsame as (? & ? & ?). split_and!; [done..|].
  by apply (Hquiet _ st0 b eq_refl Hb).
Qed.

(** X19: the rows that one tensor has beyond the length of the other are
    never used: cutting both tensors to the shorter length changes
    nothing. *)
Theorem train_model_truncates {W X Y O L : Type}
    (objs : torch_objects W X Y O L) (w : W)
    (eng_tensors : list X) (rad_tensors : list Y) (epochs : Z)
    (scheduler : option (W → W)) (verbose : bool) :
  train_model objs w eng_tensors rad_tensors epochs scheduler verbose
  = train_model objs w
      (take (length eng_tensors `min` length rad_tensors) eng_tensors)
      (take (length eng_tensors `min` length rad_tensors) rad_tensors)
      epochs scheduler verbose.
Proof.
  unfold train_model. apply train_epochs_zip. symmetry.
  by apply zip_with_take_both'.
Qed.
